(** * Closed-loop base controller of the 59B skills robot (baseControl.cpp)

    A shallow embedding of [src/src/baseControl.cpp]: the movement functions,
    the blocking wait, the PD task [baseControl] and the power task
    [baseMotorControl], followed by the properties the design document
    states about them.

    Numbers.  Every quantity of the program is a C++ [double].  The
    development reads a [double] as a real number ([R]): [fabs] is [Rabs],
    [sqrt] is [sqrt], comparisons are the order of [R].  Rounding, infinities
    and NaN are outside the model.

    State.  The globals of the translation unit, the four motor objects and
    the odometry object [position] are the fields of one record, [Robot];
    every function of the program is a function [Robot -> Robot].  A task is
    given by its loop body (one tick) and by the loop that repeats it while
    [competition::is_autonomous()] holds; what the rest of the system does
    between two ticks is an explicit environment step. *)

From Stdlib Require Import Reals Lra Lia List Bool.
Import ListNotations.
Open Scope R_scope.

(** ** Constants of the robot *)

(** The header that defines the tuning constants is not among the sources:
    they are the fields of [Constants], and every function that reads one
    takes the record as its first argument. *)
Record Constants : Type := mkConstants {
  inPerDeg : R;          (* inches travelled per encoder degree *)
  baseWidth : R;         (* track width, inches *)
  DISTANCE_LEEWAY : R;   (* arrival tolerance, encoder degrees *)
  RAMPING_POW : R;       (* largest change of power per tick *)
  MAX_POW : R;           (* power bound when no cap is set *)
  DEFAULT_KP : R;
  DEFAULT_KD : R;
  DEFAULT_TURN_KP : R;
  DEFAULT_TURN_KD : R
}.

(** Modelled from the spec: the macros [halfPI], [twoPI] and [toRad] (and
    [PI], which is [PI] of the real-number library) are missing from the
    sources; the spec reads them as 90 degrees, 360 degrees and the factor
    from degrees to radians. *)
Definition halfPI : R := PI / 2.
Definition twoPI : R := 2 * PI.
Definition toRad : R := PI / 180.

(** ** Library functions *)

(** [atan2 y x] of <math.h>: the angle of the point [(x, y)], in
    [(-PI, PI]], with [atan2 0 0 = 0]. *)
Definition atan2 (y x : R) : R :=
  if Rlt_dec 0 x then atan (y / x)
  else if Rlt_dec x 0 then
    if Rle_dec 0 y then atan (y / x) + PI else atan (y / x) - PI
  else if Rlt_dec 0 y then PI / 2
  else if Rlt_dec y 0 then - (PI / 2)
  else 0.

(** Modelled from the spec: the helper [abscap] is missing from the sources;
    the spec describes its two uses as clamping a value to plus or minus a
    limit. *)
Definition abscap (v cap : R) : R :=
  if Rgt_dec v cap then cap
  else if Rlt_dec v (- cap) then - cap
  else v.

(** ** Data model *)

(** A motor object: its integrated encoder and the powers it was told to
    run at, the most recent first. *)
Record Motor : Type := mkMotor {
  get_position : R;
  moves : list R
}.

Definition move (pow : R) (m : Motor) : Motor :=
  {| get_position := get_position m; moves := pow :: moves m |}.

Definition tare_position (m : Motor) : Motor :=
  {| get_position := 0; moves := moves m |}.

(** The pose kept by the odometry task; [angle] is in radians. *)
Record Position : Type := mkPosition {
  pos_x : R;
  pos_y : R;
  angle : R
}.

(** Modelled from the spec: [Position::setCoords] belongs to the odometry
    code, which is not among the sources; the spec says it sets the pose to
    the given values, the bearing being given in degrees. *)
Definition setCoords (x y angleDeg : R) (p : Position) : Position :=
  {| pos_x := x; pos_y := y; angle := angleDeg * toRad |}.

(** The motors, the pose and the globals of baseControl.cpp. *)
Record Robot : Type := mkRobot {
  FL : Motor;
  BL : Motor;
  FR : Motor;
  BR : Motor;
  position : Position;
  targetEncdL : R;
  targetEncdR : R;
  targetPowerL : R;
  targetPowerR : R;
  kP : R;
  kD : R;
  basePowCapped : bool;
  absPowerCap : R;
  basePaused : bool
}.

(** Assignments to one part of the state. *)
Definition set_motors (fl bl fr br : Motor) (st : Robot) : Robot :=
  mkRobot fl bl fr br (position st)
    (targetEncdL st) (targetEncdR st) (targetPowerL st) (targetPowerR st)
    (kP st) (kD st) (basePowCapped st) (absPowerCap st) (basePaused st).

Definition set_position (p : Position) (st : Robot) : Robot :=
  mkRobot (FL st) (BL st) (FR st) (BR st) p
    (targetEncdL st) (targetEncdR st) (targetPowerL st) (targetPowerR st)
    (kP st) (kD st) (basePowCapped st) (absPowerCap st) (basePaused st).

Definition set_targetEncd (l r : R) (st : Robot) : Robot :=
  mkRobot (FL st) (BL st) (FR st) (BR st) (position st)
    l r (targetPowerL st) (targetPowerR st)
    (kP st) (kD st) (basePowCapped st) (absPowerCap st) (basePaused st).

Definition set_targetPower (l r : R) (st : Robot) : Robot :=
  mkRobot (FL st) (BL st) (FR st) (BR st) (position st)
    (targetEncdL st) (targetEncdR st) l r
    (kP st) (kD st) (basePowCapped st) (absPowerCap st) (basePaused st).

Definition set_gains (kp kd : R) (st : Robot) : Robot :=
  mkRobot (FL st) (BL st) (FR st) (BR st) (position st)
    (targetEncdL st) (targetEncdR st) (targetPowerL st) (targetPowerR st)
    kp kd (basePowCapped st) (absPowerCap st) (basePaused st).

Definition set_cap (capped : bool) (cap : R) (st : Robot) : Robot :=
  mkRobot (FL st) (BL st) (FR st) (BR st) (position st)
    (targetEncdL st) (targetEncdR st) (targetPowerL st) (targetPowerR st)
    (kP st) (kD st) capped cap (basePaused st).

Definition set_basePaused (pause : bool) (st : Robot) : Robot :=
  mkRobot (FL st) (BL st) (FR st) (BR st) (position st)
    (targetEncdL st) (targetEncdR st) (targetPowerL st) (targetPowerR st)
    (kP st) (kD st) (basePowCapped st) (absPowerCap st) pause.

(** The state at program start: the globals hold their initialisers (a
    global [double] without one is zero), nothing has been commanded. *)
Definition power_on : Robot :=
  let m := mkMotor 0 [] in
  mkRobot m m m m (mkPosition 0 0 0) 0 0 0 0 0 0 false 0 false.

(** ** Movement functions *)

Section Movement.

Variable c : Constants.

(** [baseMove(dis, kp, kd)]: move straight by [dis] inches. *)
Definition baseMove (dis kp kd : R) (st : Robot) : Robot :=
  let st := set_targetEncd (targetEncdL st + dis / inPerDeg c)
                           (targetEncdR st) st in
  let st := set_targetEncd (targetEncdL st)
                           (targetEncdR st + dis / inPerDeg c) st in
  set_gains kp kd st.

(** [baseMove(dis)]. *)
Definition baseMove_default (dis : R) (st : Robot) : Robot :=
  baseMove dis (DEFAULT_KP c) (DEFAULT_KD c) st.

(** [baseMove(x, y, kp, kd)]: move straight towards a coordinate. *)
Definition baseMove_xy (x y kp kd : R) (st : Robot) : Robot :=
  let errorX := x - pos_x (position st) in
  let errorY := y - pos_y (position st) in
  let distance := sqrt (errorX * errorX + errorY * errorY) in
  let targAngle := atan2 errorX errorY in
  let reverse : R :=
    if Rge_dec (Rabs (targAngle - angle (position st))) halfPI
    then -1 else 1 in
  let st := set_targetEncd (targetEncdL st + distance / inPerDeg c * reverse)
                           (targetEncdR st) st in
  let st := set_targetEncd (targetEncdL st)
                           (targetEncdR st + distance / inPerDeg c * reverse)
                           st in
  set_gains kp kd st.

(** [baseMove(x, y)]. *)
Definition baseMove_xy_default (x y : R) (st : Robot) : Robot :=
  baseMove_xy x y (DEFAULT_KP c) (DEFAULT_KD c) st.

(** [baseTurn(angleDeg, kp, kd)]: turn to an absolute bearing. *)
Definition baseTurn (angleDeg kp kd : R) (st : Robot) : Robot :=
  let error := angleDeg * toRad - angle (position st) in
  let diff := error * baseWidth c / inPerDeg c in
  let st := set_targetEncd (targetEncdL st + diff / 2) (targetEncdR st) st in
  let st := set_targetEncd (targetEncdL st) (targetEncdR st + - diff / 2) st in
  set_gains kp kd st.

(** [baseTurn(angleDeg)]. *)
Definition baseTurn_default (angleDeg : R) (st : Robot) : Robot :=
  baseTurn angleDeg (DEFAULT_TURN_KP c) (DEFAULT_TURN_KD c) st.

(** Lines 171 to 182 of [baseTurn(x, y, kp, kd, reverse)]: the local
    [targAngle] once the two wrap tests have run. *)
Definition baseTurn_targAngle (x y : R) (reverse : bool) (st : Robot) : R :=
  let targAngle :=
    atan2 (x - pos_x (position st)) (y - pos_y (position st)) in
  let targAngle := if reverse then targAngle + PI else targAngle in
  let targAngle :=
    if Rgt_dec (targAngle - angle (position st)) PI
    then targAngle - twoPI else targAngle in
  let targAngle :=
    if Rlt_dec (targAngle - angle (position st)) (- PI)
    then targAngle + twoPI else targAngle in
  targAngle.

(** [baseTurn(x, y, kp, kd, reverse)]: turn to face a coordinate. *)
Definition baseTurn_xy (x y kp kd : R) (reverse : bool) (st : Robot)
  : Robot :=
  let targAngle := baseTurn_targAngle x y reverse st in
  let diff :=
    (targAngle - angle (position st)) * baseWidth c / inPerDeg c in
  let st := set_targetEncd (targetEncdL st + diff / 2) (targetEncdR st) st in
  let st := set_targetEncd (targetEncdL st) (targetEncdR st + - diff / 2) st in
  set_gains kp kd st.

(** [baseTurn(x, y, reverse)]. *)
Definition baseTurn_xy_default (x y : R) (reverse : bool) (st : Robot)
  : Robot :=
  baseTurn_xy x y (DEFAULT_TURN_KP c) (DEFAULT_TURN_KD c) reverse st.

(** [baseTurnRelative(angle, kp, kd)]: turn by a relative angle. *)
Definition baseTurnRelative (a kp kd : R) (st : Robot) : Robot :=
  let diff := a * toRad * baseWidth c / inPerDeg c in
  let st := set_targetEncd (targetEncdL st + diff / 2) (targetEncdR st) st in
  let st := set_targetEncd (targetEncdL st) (targetEncdR st + - diff / 2) st in
  set_gains kp kd st.

End Movement.

(** ** The environment *)

(** The program shares the robot with the physical world and with its other
    tasks.  Whatever they do to the state between two observations made by a
    piece of code is an environment step. *)
Definition Env : Type := Robot -> Robot.

Definition quiet : Env := fun st => st.

(** ** Blocking and override utilities *)

Section Utilities.

Variable c : Constants.

(** The [while] of [waitBase].  Each element of [polls] is one evaluation of
    the loop condition: what the environment did since the previous one and
    the value [millis()] returns.  The result is the number of [delay(20)]
    calls made, the clock and the state at the evaluation that left the
    loop; [None] when the loop is still waiting after the last poll. *)
Fixpoint waitBase_loop (cutoff start : R) (polls : list (Env * R))
  (delays : nat) (st : Robot) : option (nat * R * Robot) :=
  match polls with
  | [] => None
  | (e, now) :: polls' =>
      let st := e st in
      if Rgt_dec (Rabs (targetEncdL st - get_position (BL st)))
                 (DISTANCE_LEEWAY c)
      then if Rgt_dec (Rabs (targetEncdR st - get_position (BR st)))
                      (DISTANCE_LEEWAY c)
      then if Rlt_dec (now - start) cutoff
      then waitBase_loop cutoff start polls' (S delays) st
      else Some (delays, now, st)
      else Some (delays, now, st)
      else Some (delays, now, st)
  end.

(** The four [move(0)] calls that end [waitBase] and [timerBase]. *)
Definition stop_motors (st : Robot) : Robot :=
  let st := set_motors (move 0 (FL st)) (BL st) (FR st) (BR st) st in
  let st := set_motors (FL st) (move 0 (BL st)) (FR st) (BR st) st in
  let st := set_motors (FL st) (BL st) (move 0 (FR st)) (BR st) st in
  set_motors (FL st) (BL st) (FR st) (move 0 (BR st)) st.

(** [waitBase(cutoff)], called when the clock reads [start]. *)
Definition waitBase (cutoff start : R) (polls : list (Env * R)) (st : Robot)
  : option Robot :=
  match waitBase_loop cutoff start polls 0 st with
  | Some (_, _, st) => Some (stop_motors st)
  | None => None
  end.

(** [capBasePow(cap)], [rmBaseCap()] and [pauseBase(pause)]. *)
Definition capBasePow (cap : R) (st : Robot) : Robot :=
  let st := set_cap true (absPowerCap st) st in
  set_cap (basePowCapped st) cap st.

Definition rmBaseCap (st : Robot) : Robot :=
  set_cap false (absPowerCap st) st.

Definition pauseBase (pause : bool) (st : Robot) : Robot :=
  set_basePaused pause st.

(** [resetCoords(x, y, angleDeg)] is seven statements, each a write to one
    object. *)
Definition resetCoords_steps (x y angleDeg : R) : list (Robot -> Robot) :=
  [ (fun st => set_position (setCoords x y angleDeg (position st)) st);
    (fun st => set_motors (tare_position (FL st)) (BL st) (FR st) (BR st) st);
    (fun st => set_motors (FL st) (BL st) (tare_position (FR st)) (BR st) st);
    (fun st => set_motors (FL st) (tare_position (BL st)) (FR st) (BR st) st);
    (fun st => set_motors (FL st) (BL st) (FR st) (tare_position (BR st)) st);
    (fun st => set_targetEncd 0 (targetEncdR st) st);
    (fun st => set_targetEncd (targetEncdL st) 0 st) ].

Definition run_steps (steps : list (Robot -> Robot)) (st : Robot) : Robot :=
  fold_left (fun st step => step st) steps st.

Definition resetCoords (x y angleDeg : R) (st : Robot) : Robot :=
  run_steps (resetCoords_steps x y angleDeg) st.

(** Nothing in [resetCoords] keeps the tasks out while it runs: a task
    scheduled once the first [k] statements are done finds this state. *)
Definition resetCoords_prefix (k : nat) (x y angleDeg : R) (st : Robot)
  : Robot :=
  run_steps (firstn k (resetCoords_steps x y angleDeg)) st.

End Utilities.

(** ** The two tasks *)

(** A task is [while (competition::is_autonomous()) { body; delay(20); }]
    around variables declared before the loop.  [task_loop tick env] runs
    the body once per element of [env], after the environment step it
    holds: the length of [env] is the number of times the loop test held. *)
Fixpoint task_loop {L : Type} (tick : L -> Robot -> L * Robot)
  (env : list Env) (loc : L) (st : Robot) : L * Robot :=
  match env with
  | [] => (loc, st)
  | e :: env' =>
      let (loc, st) := tick loc (e st) in
      task_loop tick env' loc st
  end.

(** The locals of [baseControl]. *)
Record PrevError : Type := mkPrevError {
  prevErrorEncdL : R;
  prevErrorEncdR : R
}.

Definition baseControl_init : PrevError := mkPrevError 0 0.

(** One pass through the body of [baseControl]. *)
Definition baseControl_tick (loc : PrevError) (st : Robot)
  : PrevError * Robot :=
  let errorEncdL := targetEncdL st - get_position (BL st) in
  let errorEncdR := targetEncdR st - get_position (BR st) in
  let deltaErrorEncdL := errorEncdL - prevErrorEncdL loc in
  let deltaErrorEncdR := errorEncdR - prevErrorEncdR loc in
  let loc := mkPrevError errorEncdL errorEncdR in
  let st := set_targetPower (kP st * errorEncdL + kD st * deltaErrorEncdL)
                            (targetPowerR st) st in
  let st := set_targetPower (targetPowerL st)
                            (kP st * errorEncdR + kD st * deltaErrorEncdR)
                            st in
  (loc, st).

Definition baseControl (env : list Env) (st : Robot) : PrevError * Robot :=
  task_loop baseControl_tick env baseControl_init st.

(** The locals of [baseMotorControl]. *)
Record Power : Type := mkPower {
  powerL : R;
  powerR : R
}.

Definition baseMotorControl_init : Power := mkPower 0 0.

Section MotorControl.

Variable c : Constants.

(** One pass through the body of [baseMotorControl]. *)
Definition baseMotorControl_tick (loc : Power) (st : Robot)
  : Power * Robot :=
  let deltaPowerL := targetPowerL st - powerL loc in
  let loc :=
    mkPower (powerL loc + abscap deltaPowerL (RAMPING_POW c)) (powerR loc) in
  let deltaPowerR := targetPowerR st - powerR loc in
  let loc :=
    mkPower (powerL loc) (powerR loc + abscap deltaPowerR (RAMPING_POW c)) in
  let loc :=
    if basePowCapped st
    then mkPower (abscap (powerL loc) (absPowerCap st))
                 (abscap (powerR loc) (absPowerCap st))
    else mkPower (abscap (powerL loc) (MAX_POW c))
                 (abscap (powerR loc) (MAX_POW c)) in
  let st :=
    if negb (basePaused st)
    then
      let st :=
        set_motors (move (powerL loc) (FL st)) (BL st) (FR st) (BR st) st in
      let st :=
        set_motors (FL st) (move (powerL loc) (BL st)) (FR st) (BR st) st in
      let st :=
        set_motors (FL st) (BL st) (move (powerR loc) (FR st)) (BR st) st in
      set_motors (FL st) (BL st) (FR st) (move (powerR loc) (BR st)) st
    else st in
  (loc, st).

Definition baseMotorControl (env : list Env) (st : Robot) : Power * Robot :=
  task_loop baseMotorControl_tick env baseMotorControl_init st.

End MotorControl.

(** ** The timed override and the driver loop *)

(** The [while] of [timerBase]: only the clock is tested.  The polls and
    the result are those of [waitBase_loop]. *)
Fixpoint timerBase_loop (time start : R) (polls : list (Env * R))
  (delays : nat) (st : Robot) : option (nat * R * Robot) :=
  match polls with
  | [] => None
  | (e, now) :: polls' =>
      let st := e st in
      if Rlt_dec (now - start) time
      then timerBase_loop time start polls' (S delays) st
      else Some (delays, now, st)
  end.

(** [timerBase(powL, powR, time)], called when the clock reads [start]. *)
Definition timerBase (powL powR time start : R) (polls : list (Env * R))
  (st : Robot) : option Robot :=
  let st := pauseBase true st in
  let st := set_motors (move powL (FL st)) (BL st) (FR st) (BR st) st in
  let st := set_motors (FL st) (move powL (BL st)) (FR st) (BR st) st in
  let st := set_motors (FL st) (BL st) (move powR (FR st)) (BR st) st in
  let st := set_motors (FL st) (BL st) (FR st) (move powR (BR st)) st in
  match timerBase_loop time start polls 0 st with
  | Some (_, _, st) => Some (pauseBase false (stop_motors st))
  | None => None
  end.

(** The state in which [timerBase] starts to wait: the base paused and the
    raw powers told to the motors. *)
Definition timerBase_armed (powL powR : R) (st : Robot) : Robot :=
  let st := pauseBase true st in
  let st := set_motors (move powL (FL st)) (BL st) (FR st) (BR st) st in
  let st := set_motors (FL st) (move powL (BL st)) (FR st) (BR st) st in
  let st := set_motors (FL st) (BL st) (move powR (FR st)) (BR st) st in
  set_motors (FL st) (BL st) (FR st) (move powR (BR st)) st.

(** What one pass of the loop of [opcontrol] (main.cpp) reads from the
    controller: whether button Y was newly pressed, and three stick axes,
    each an [int]. *)
Record Controller : Type := mkController {
  new_press_Y : bool;
  left_y : Z;
  right_y : Z;
  right_x : Z
}.

(** The local [BRAKE_POW] of [opcontrol]. *)
Definition BRAKE_POW : R := 0.

(** One pass through the [while (true)] of [opcontrol]; [tankDrive] is its
    local flag.  The motor objects it declares sit on the ports of the
    four base motors. *)
Definition opcontrol_tick (tankDrive : bool) (master : Controller)
  (st : Robot) : bool * Robot :=
  let tankDrive := if new_press_Y master then negb tankDrive else tankDrive in
  let st :=
    if tankDrive
    then
      let l := left_y master in
      let r := right_y master in
      let st := set_motors (move (IZR l - BRAKE_POW) (FL st))
                           (BL st) (FR st) (BR st) st in
      let st := set_motors (FL st) (move (IZR l + BRAKE_POW) (BL st))
                           (FR st) (BR st) st in
      let st := set_motors (FL st) (BL st)
                           (move (IZR r - BRAKE_POW) (FR st)) (BR st) st in
      set_motors (FL st) (BL st) (FR st)
                 (move (IZR r + BRAKE_POW) (BR st)) st
    else
      let y := left_y master in
      let x := right_x master in
      let st := set_motors (move (IZR (y + x) - BRAKE_POW) (FL st))
                           (BL st) (FR st) (BR st) st in
      let st := set_motors (FL st) (move (IZR (y + x) + BRAKE_POW) (BL st))
                           (FR st) (BR st) st in
      let st := set_motors (FL st) (BL st)
                           (move (IZR (y - x) - BRAKE_POW) (FR st))
                           (BR st) st in
      set_motors (FL st) (BL st) (FR st)
                 (move (IZR (y - x) + BRAKE_POW) (BR st)) st in
  (tankDrive, st).

(** The loop of [opcontrol] over the successive readings of the
    controller; [tankDrive] starts as [false]. *)
Fixpoint opcontrol_loop (inputs : list Controller) (tankDrive : bool)
  (st : Robot) : bool * Robot :=
  match inputs with
  | [] => (tankDrive, st)
  | master :: inputs' =>
      let (tankDrive, st) := opcontrol_tick tankDrive master st in
      opcontrol_loop inputs' tankDrive st
  end.

Definition opcontrol (inputs : list Controller) (st : Robot) : bool * Robot :=
  opcontrol_loop inputs false st.

(** ** Notions used in the statements below *)

(** Both sides are further than the tolerance from their targets. *)
Definition both_far (c : Constants) (st : Robot) : Prop :=
  Rabs (targetEncdL st - get_position (BL st)) > DISTANCE_LEEWAY c /\
  Rabs (targetEncdR st - get_position (BR st)) > DISTANCE_LEEWAY c.

(** Each [delay(20)] lasts at least 20 ms: the poll that follows [k + i]
    delays reads a clock of at least [start + 20 * (k + i)]. *)
Definition clock_advances (start : R) (k : nat) (polls : list (Env * R))
  : Prop :=
  forall (i : nat) (e : Env) (t : R),
    nth_error polls i = Some (e, t) -> start + 20 * INR (k + i) <= t.

(** An environment step that, while the base is paused, leaves the flag set
    and tells the motors nothing. *)
Definition respects_pause (e : Env) : Prop :=
  forall st : Robot,
    basePaused st = true ->
    basePaused (e st) = true /\
    moves (FL (e st)) = moves (FL st) /\ moves (BL (e st)) = moves (BL st) /\
    moves (FR (e st)) = moves (FR st) /\ moves (BR (e st)) = moves (BR st).

(** The clock and the state at each evaluation of the loop condition of
    [waitBase] or [timerBase]. *)
Fixpoint seen (polls : list (Env * R)) (st : Robot) : list (R * Robot) :=
  match polls with
  | [] => []
  | (e, now) :: polls' => (now, e st) :: seen polls' (e st)
  end.

(** At a poll, [waitBase] goes on waiting: both sides are out of tolerance
    and the cutoff has not elapsed. *)
Definition keeps_waiting (c : Constants) (cutoff start : R)
  (p : R * Robot) : Prop :=
  both_far c (snd p) /\ fst p - start < cutoff.

(** The number of new presses of button Y among the readings. *)
Definition presses (inputs : list Controller) : nat :=
  length (filter new_press_Y inputs).

(** ** Sample situations used in the statements below *)

(** The environment step in which the robot travels until the encoders of
    the two back motors read [l] and [r]. *)
Definition encoders_reach (l r : R) : Env :=
  fun st =>
    set_motors (FL st) (mkMotor l (moves (BL st)))
               (FR st) (mkMotor r (moves (BR st))) st.

(** Values of the constants for the worked examples: a ramp of 15 per tick
    and the motor's full scale of 127. *)
Definition bench : Constants :=
  mkConstants (1 / 40) 12 15 15 127 (1 / 5) (1 / 10) (3 / 10) (1 / 10).

(** The robot at rest at the pose [(px, py)] with heading [a], nothing yet
    commanded. *)
Definition at_pose (px py a : R) : Robot :=
  set_position (mkPosition px py a) power_on.

(** The bound [baseMotorControl] clamps to: the cap when one is set,
    [MAX_POW] otherwise. *)
Definition power_limit (c : Constants) (st : Robot) : R :=
  if basePowCapped st then absPowerCap st else MAX_POW c.

(** What one tick of [baseMotorControl] makes of the power [p] of a side
    whose target power is [target]: the ramp by at most [ramp], then the
    clamp to [lim]. *)
Definition shaped (ramp lim target p : R) : R :=
  abscap (p + abscap (target - p) ramp) lim.

(** Two states in which [baseMotorControl] reads the same requests: target
    powers and cap. *)
Definition same_requests (s1 s2 : Robot) : Prop :=
  targetPowerL s1 = targetPowerL s2 /\
  targetPowerR s1 = targetPowerR s2 /\
  basePowCapped s1 = basePowCapped s2 /\
  absPowerCap s1 = absPowerCap s2.

(** The environment of [baseMotorControl] in which the only thing that
    happens between two ticks is that new target powers are written. *)
Definition requests (reqs : list (R * R)) : list Env :=
  map (fun lr => set_targetPower (fst lr) (snd lr)) reqs.

(** The powers each motor has been told to run at. *)
Definition commanded (st : Robot) : list R * list R * list R * list R :=
  (moves (FL st), moves (BL st), moves (FR st), moves (BR st)).

(** The power each motor was last told to run at (0 before any command). *)
Definition last_commanded (st : Robot) : R * R * R * R :=
  (hd 0 (moves (FL st)), hd 0 (moves (BL st)),
   hd 0 (moves (FR st)), hd 0 (moves (BR st))).

(** An environment step that leaves the cap as it is. *)
Definition keeps_cap (e : Env) : Prop :=
  forall st : Robot,
    basePowCapped (e st) = basePowCapped st /\
    absPowerCap (e st) = absPowerCap st.

(** A command adds [dL] and [dR] to the target encoder values: whatever
    values the two targets hold, it leaves them increased by [dL] and by
    [dR]. *)
Definition adds_to_targets (cmd : Robot -> Robot) (st : Robot) (dL dR : R)
  : Prop :=
  forall tl tr : R,
    targetEncdL (cmd (set_targetEncd tl tr st)) = tl + dL /\
    targetEncdR (cmd (set_targetEncd tl tr st)) = tr + dR.

(** * Properties *)

(** ** Tactics and facts about the library functions *)

(** Decide a test of the goal, the innermost first. *)
Ltac case_if :=
  match goal with
  | |- context [if ?d then _ else _] =>
      lazymatch d with
      | context [if _ then _ else _] => fail
      | _ => destruct d
      end
  end.

Ltac case_Rabs :=
  unfold Rabs in *;
  repeat match goal with
  | |- context [Rcase_abs ?v] => destruct (Rcase_abs v)
  | H : context [Rcase_abs ?v] |- _ => destruct (Rcase_abs v)
  end.

Lemma PI_pos : 0 < PI.
Proof. exact PI_RGT_0. Qed.

Lemma abscap_range (v cap : R) :
  0 <= cap -> - cap <= abscap v cap <= cap.
Proof. intros Hc. unfold abscap. repeat case_if; lra. Qed.

Lemma atan2_range (y x : R) : - PI < atan2 y x <= PI.
Proof.
  pose proof PI_pos as Hpi.
  pose proof (atan_bound (y / x)) as Hb.
  unfold atan2. repeat case_if; try lra.
  - (* left half plane, y >= 0: the quotient is not positive *)
    assert (Hq : y / x <= 0).
    { unfold Rdiv. assert (/ x < 0) by (apply Rinv_lt_0_compat; lra). nra. }
    destruct Hq as [Hq | Hq].
    + apply atan_increasing in Hq. rewrite atan_0 in Hq. lra.
    + rewrite Hq, atan_0. lra.
  - (* left half plane, y < 0: the quotient is positive *)
    assert (Hq : 0 < y / x).
    { unfold Rdiv. assert (/ x < 0) by (apply Rinv_lt_0_compat; lra). nra. }
    apply atan_increasing in Hq. rewrite atan_0 in Hq. lra.
Qed.

Lemma atan2_ahead (d : R) : 0 < d -> atan2 0 d = 0.
Proof.
  intros Hd. unfold atan2. destruct (Rlt_dec 0 d) as [_ | Hn]; [| lra].
  unfold Rdiv. rewrite Rmult_0_l. exact atan_0.
Qed.

(** [atan2] recovers the angle of a point given in polar form. *)
Lemma atan2_polar (r a : R) :
  0 < r -> - PI < a <= PI -> atan2 (r * sin a) (r * cos a) = a.
Proof.
  intros Hr [Hlo Hhi].
  pose proof PI_pos as Hpi.
  assert (Hquot : cos a <> 0 -> r * sin a / (r * cos a) = tan a).
  { intros Hc. unfold tan. field. split; lra. }
  destruct (Rlt_dec a (- (PI / 2))) as [Ha | Ha].
  - (* third quadrant *)
    assert (Hc : cos (a + PI) > 0) by (apply cos_gt_0; lra).
    assert (Hs : sin (a + PI) > 0) by (apply sin_gt_0; lra).
    rewrite neg_cos in Hc. rewrite neg_sin in Hs.
    unfold atan2.
    destruct (Rlt_dec 0 (r * cos a)) as [H1 | H1]; [nra |].
    destruct (Rlt_dec (r * cos a) 0) as [H2 | H2]; [| nra].
    destruct (Rle_dec 0 (r * sin a)) as [H3 | H3]; [nra |].
    rewrite Hquot by lra.
    replace (tan a) with (tan (a + PI)).
    + rewrite atan_tan by lra. lra.
    + unfold tan. rewrite neg_sin, neg_cos. field. lra.
  - destruct (Req_dec_T a (- (PI / 2))) as [Hm | Hm].
    + subst a. rewrite sin_neg, cos_neg, sin_PI2, cos_PI2.
      unfold atan2. repeat case_if; lra.
    + destruct (Rlt_dec a (PI / 2)) as [Hb | Hb].
      * (* right half plane *)
        assert (Hc : cos a > 0) by (apply cos_gt_0; lra).
        unfold atan2.
        destruct (Rlt_dec 0 (r * cos a)) as [H1 | H1]; [| nra].
        rewrite Hquot by lra. apply atan_tan. lra.
      * destruct (Req_dec_T a (PI / 2)) as [Hp | Hp].
        -- subst a. rewrite sin_PI2, cos_PI2.
           unfold atan2. repeat case_if; lra.
        -- (* second quadrant *)
           assert (Hc : cos (PI - a) > 0) by (apply cos_gt_0; lra).
           assert (Hs : 0 <= sin a) by (apply sin_ge_0; lra).
           rewrite Rtrigo_facts.cos_pi_minus in Hc.
           unfold atan2.
           destruct (Rlt_dec 0 (r * cos a)) as [H1 | H1]; [nra |].
           destruct (Rlt_dec (r * cos a) 0) as [H2 | H2]; [| nra].
           destruct (Rle_dec 0 (r * sin a)) as [H3 | H3]; [| nra].
           rewrite Hquot by lra.
           replace (tan a) with (tan (a - PI)).
           ++ rewrite atan_tan by lra. lra.
           ++ replace (a - PI) with (- (PI - a)) by lra.
              rewrite tan_neg, Rtrigo_facts.tan_pi_minus by lra. lra.
Qed.

(** ** Movement functions *)

(** C6.  Each of the five movement functions adds its delta to
    [targetEncdL] and [targetEncdR]: whatever values the targets hold, they
    are left increased by the delta of the command, which is the distance
    in encoder degrees for a straight move, the signed distance to the
    point for a move towards a point, and plus and minus half the
    differential delta of the rotation for the three turns.  Hence two
    straight moves issued one after the other leave the state a single move
    of the summed distance leaves; in particular moves of 10 and 5 inches
    compose to one move of 15 inches, with explicit gains and with the
    default ones. *)
Theorem movement_commands_accumulate (c : Constants) (st : Robot) :
  (forall dis kp kd,
      adds_to_targets (baseMove c dis kp kd) st
        (dis / inPerDeg c) (dis / inPerDeg c)) /\
  (forall x y kp kd,
      let errorX := x - pos_x (position st) in
      let errorY := y - pos_y (position st) in
      let signed :=
        sqrt (errorX * errorX + errorY * errorY) / inPerDeg c
        * (if Rge_dec (Rabs (atan2 errorX errorY - angle (position st)))
                      halfPI
           then -1 else 1) in
      adds_to_targets (baseMove_xy c x y kp kd) st signed signed) /\
  (forall angleDeg kp kd,
      let diff :=
        (angleDeg * toRad - angle (position st)) * baseWidth c / inPerDeg c in
      adds_to_targets (baseTurn c angleDeg kp kd) st
        (diff / 2) (- diff / 2)) /\
  (forall x y kp kd reverse,
      let diff :=
        (baseTurn_targAngle x y reverse st - angle (position st))
        * baseWidth c / inPerDeg c in
      adds_to_targets (baseTurn_xy c x y kp kd reverse) st
        (diff / 2) (- diff / 2)) /\
  (forall a kp kd,
      let diff := a * toRad * baseWidth c / inPerDeg c in
      adds_to_targets (baseTurnRelative c a kp kd) st
        (diff / 2) (- diff / 2)) /\
  (forall d1 d2 kp kd,
      baseMove c d2 kp kd (baseMove c d1 kp kd st)
      = baseMove c (d1 + d2) kp kd st) /\
  (forall kp kd,
      baseMove c 5 kp kd (baseMove c 10 kp kd st) = baseMove c 15 kp kd st) /\
  baseMove_default c 5 (baseMove_default c 10 st) = baseMove_default c 15 st /\
  targetEncdL (baseMove_default c 5 (baseMove_default c 10 st))
    - targetEncdL st = 15 / inPerDeg c /\
  targetEncdR (baseMove_default c 5 (baseMove_default c 10 st))
    - targetEncdR st = 15 / inPerDeg c.
Proof.
  assert (Hsum : forall d1 d2 kp kd,
             baseMove c d2 kp kd (baseMove c d1 kp kd st)
             = baseMove c (d1 + d2) kp kd st).
  { intros d1 d2 kp kd. unfold baseMove, set_gains, set_targetEncd. simpl.
    f_equal; unfold Rdiv; ring. }
  split; [| split; [| split; [| split; [| split]]]].
  - intros dis kp kd tl tr. split; reflexivity.
  - intros x y kp kd errorX errorY signed tl tr. split; reflexivity.
  - intros angleDeg kp kd diff tl tr. split; reflexivity.
  - intros x y kp kd reverse diff tl tr. split; reflexivity.
  - intros a kp kd diff tl tr. split; reflexivity.
  - split; [exact Hsum |]. split; [| split; [| split]].
    + intros kp kd. rewrite Hsum. f_equal. lra.
    + unfold baseMove_default. rewrite Hsum. f_equal. lra.
    + unfold baseMove_default, baseMove. simpl. unfold Rdiv. ring.
    + unfold baseMove_default, baseMove. simpl. unfold Rdiv. ring.
Qed.

(** C3.  [baseMove(x, y, kp, kd)] adds to both targets the Euclidean
    distance to the target point, in encoder degrees, with a sign: negative
    when the bearing [atan2 (x - position.x) (y - position.y)] and the
    current heading differ by 90 degrees or more in absolute value,
    positive otherwise.  With a positive [inPerDeg] and a target away from
    the robot the delta is strictly negative in the first case and strictly
    positive in the second.  At a difference of 95 degrees the distance is
    applied negated, at 85 degrees as it is. *)
Theorem baseMove_xy_reverse_inference (c : Constants) (st : Robot)
  (x y kp kd : R) :
  let errorX := x - pos_x (position st) in
  let errorY := y - pos_y (position st) in
  let distance := sqrt (errorX * errorX + errorY * errorY) in
  let apart := Rabs (atan2 errorX errorY - angle (position st)) in
  let st' := baseMove_xy c x y kp kd st in
  (apart >= halfPI ->
     targetEncdL st' = targetEncdL st + - (distance / inPerDeg c) /\
     targetEncdR st' = targetEncdR st + - (distance / inPerDeg c)) /\
  (apart < halfPI ->
     targetEncdL st' = targetEncdL st + distance / inPerDeg c /\
     targetEncdR st' = targetEncdR st + distance / inPerDeg c) /\
  (0 < inPerDeg c -> errorX <> 0 \/ errorY <> 0 ->
     (apart >= halfPI ->
        targetEncdL st' - targetEncdL st < 0 /\
        targetEncdR st' - targetEncdR st < 0) /\
     (apart < halfPI ->
        0 < targetEncdL st' - targetEncdL st /\
        0 < targetEncdR st' - targetEncdR st)) /\
  (apart = 95 * toRad ->
     targetEncdL st' = targetEncdL st + - (distance / inPerDeg c) /\
     targetEncdR st' = targetEncdR st + - (distance / inPerDeg c)) /\
  (apart = 85 * toRad ->
     targetEncdL st' = targetEncdL st + distance / inPerDeg c /\
     targetEncdR st' = targetEncdR st + distance / inPerDeg c).
Proof.
  intros errorX errorY distance apart st'.
  pose proof PI_pos as Hpi.
  assert (Hrev : apart >= halfPI ->
            targetEncdL st' = targetEncdL st + - (distance / inPerDeg c) /\
            targetEncdR st' = targetEncdR st + - (distance / inPerDeg c)).
  { intros Hge. unfold st', baseMove_xy. simpl.
    fold errorX errorY. fold distance. fold apart.
    destruct (Rge_dec apart halfPI) as [_ | Hn]; [| contradiction].
    split; lra. }
  assert (Hfwd : apart < halfPI ->
            targetEncdL st' = targetEncdL st + distance / inPerDeg c /\
            targetEncdR st' = targetEncdR st + distance / inPerDeg c).
  { intros Hlt. unfold st', baseMove_xy. simpl.
    fold errorX errorY. fold distance. fold apart.
    destruct (Rge_dec apart halfPI) as [Hge | _]; [lra |].
    split; lra. }
  split; [exact Hrev |]. split; [exact Hfwd |]. split; [| split].
  - intros Hin Hfar.
    assert (Hd : 0 < distance / inPerDeg c).
    { apply Rdiv_lt_0_compat; [| exact Hin].
      apply sqrt_lt_R0. destruct Hfar; nra. }
    split; intros Ha.
    + destruct (Hrev Ha) as [-> ->]. lra.
    + destruct (Hfwd Ha) as [-> ->]. lra.
  - intros Ha. apply Hrev. rewrite Ha. unfold toRad, halfPI. lra.
  - intros Ha. apply Hfwd. rewrite Ha. unfold toRad, halfPI. lra.
Qed.

Lemma baseMove_xy_reverse_inference_witness :
  targetEncdL (baseMove_xy bench 0 1 1 0 (at_pose 0 0 (95 * toRad))) < 0 /\
  0 < targetEncdL (baseMove_xy bench 0 1 1 0 (at_pose 0 0 (85 * toRad))).
Proof.
  pose proof PI_pos as Hpi.
  assert (Hb : atan2 (0 - 0) (1 - 0) = 0).
  { replace (0 - 0) with 0 by lra. apply atan2_ahead. lra. }
  assert (Hin : 0 < inPerDeg bench) by (simpl; lra).
  split.
  - destruct (baseMove_xy_reverse_inference bench
                (at_pose 0 0 (95 * toRad)) 0 1 1 0) as (_ & _ & Hs & _).
    assert (Hfar : 0 - pos_x (position (at_pose 0 0 (95 * toRad))) <> 0 \/
                   1 - pos_y (position (at_pose 0 0 (95 * toRad))) <> 0)
      by (right; simpl; lra).
    destruct (Hs Hin Hfar) as [Hrev _].
    assert (Hap : Rabs (atan2 (0 - 0) (1 - 0) - 95 * toRad) >= halfPI).
    { rewrite Hb. unfold toRad, halfPI. case_Rabs; lra. }
    destruct (Hrev Hap) as [Hl _].
    change (targetEncdL (at_pose 0 0 (95 * toRad))) with 0 in Hl. lra.
  - destruct (baseMove_xy_reverse_inference bench
                (at_pose 0 0 (85 * toRad)) 0 1 1 0) as (_ & _ & Hs & _).
    assert (Hfar : 0 - pos_x (position (at_pose 0 0 (85 * toRad))) <> 0 \/
                   1 - pos_y (position (at_pose 0 0 (85 * toRad))) <> 0)
      by (right; simpl; lra).
    destruct (Hs Hin Hfar) as [_ Hfwd].
    assert (Hap : Rabs (atan2 (0 - 0) (1 - 0) - 85 * toRad) < halfPI).
    { rewrite Hb. unfold toRad, halfPI. case_Rabs; lra. }
    destruct (Hfwd Hap) as [Hl _].
    change (targetEncdL (at_pose 0 0 (85 * toRad))) with 0 in Hl. lra.
Defined.

(** The single wrap of [baseTurn(x, y, ...)] under its two tests. *)
Lemma baseTurn_targAngle_cases (x y : R) (reverse : bool) (st : Robot) :
  let bearing := atan2 (x - pos_x (position st)) (y - pos_y (position st)) in
  let aimed := if reverse then bearing + PI else bearing in
  let raw := aimed - angle (position st) in
  let delta := baseTurn_targAngle x y reverse st - angle (position st) in
  (raw > PI -> delta = raw - twoPI) /\
  (raw < - PI -> delta = raw + twoPI) /\
  (- PI <= raw <= PI -> delta = raw).
Proof.
  intros bearing aimed raw delta.
  pose proof PI_pos as Hpi.
  unfold delta, baseTurn_targAngle. fold bearing. fold aimed.
  unfold raw, twoPI.
  repeat split; intros; repeat case_if; lra.
Qed.

Lemma baseTurn_xy_targets (c : Constants) (x y kp kd : R) (reverse : bool)
  (st : Robot) :
  let delta := baseTurn_targAngle x y reverse st - angle (position st) in
  targetEncdL (baseTurn_xy c x y kp kd reverse st)
    = targetEncdL st + delta * baseWidth c / inPerDeg c / 2 /\
  targetEncdR (baseTurn_xy c x y kp kd reverse st)
    = targetEncdR st + - (delta * baseWidth c / inPerDeg c) / 2.
Proof.
  intros delta. unfold baseTurn_xy. simpl. fold delta. split; lra.
Qed.

(** One wrap is enough exactly when the difference between the angle
    aimed at and the heading is no more than a turn and a half: the
    rotation [baseTurn(x, y, ...)] applies is at most 180 degrees in
    absolute value if and only if that difference is at most 540 degrees in
    absolute value. *)
Lemma baseTurn_xy_single_wrap (x y : R) (reverse : bool) (st : Robot) :
  let bearing := atan2 (x - pos_x (position st)) (y - pos_y (position st)) in
  let aimed := if reverse then bearing + PI else bearing in
  let raw := aimed - angle (position st) in
  let delta := baseTurn_targAngle x y reverse st - angle (position st) in
  Rabs delta <= PI <-> Rabs raw <= 3 * PI.
Proof.
  intros bearing aimed raw delta.
  pose proof PI_pos as Hpi.
  destruct (baseTurn_targAngle_cases x y reverse st) as (Hup & Hdown & Hin).
  fold bearing in Hup, Hdown, Hin. fold aimed in Hup, Hdown, Hin.
  fold raw in Hup, Hdown, Hin. fold delta in Hup, Hdown, Hin.
  destruct (Rgt_dec raw PI) as [Hgt | Hle].
  - rewrite (Hup Hgt). unfold twoPI. split; intros H; case_Rabs; lra.
  - destruct (Rlt_dec raw (- PI)) as [Hlt | Hge].
    + rewrite (Hdown Hlt). unfold twoPI. split; intros H; case_Rabs; lra.
    + rewrite Hin by lra. split; intros H; case_Rabs; lra.
Qed.

(** C2, the code at a failing input.  The robot stands at the origin with
    the heading at 720 degrees and is told to turn towards the point
    [(0, 1)], straight along the y axis: the bearing is 0, the difference
    of -720 degrees is below -180 degrees and is wrapped once, and the
    rotation applied is -360 degrees, a full turn, more than 180 degrees in
    absolute value; the two targets receive plus and minus half the
    differential delta of that full turn. *)
Theorem baseTurn_xy_turns_a_full_circle (c : Constants) (kp kd : R) :
  let st := at_pose 0 0 (720 * toRad) in
  atan2 (0 - pos_x (position st)) (1 - pos_y (position st)) = 0 /\
  baseTurn_targAngle 0 1 false st - angle (position st) = -360 * toRad /\
  Rabs (baseTurn_targAngle 0 1 false st - angle (position st)) > PI /\
  targetEncdL (baseTurn_xy c 0 1 kp kd false st)
    = targetEncdL st + -360 * toRad * baseWidth c / inPerDeg c / 2 /\
  targetEncdR (baseTurn_xy c 0 1 kp kd false st)
    = targetEncdR st + - (-360 * toRad * baseWidth c / inPerDeg c) / 2.
Proof.
  intros st.
  pose proof PI_pos as Hpi.
  assert (Hb : atan2 (0 - 0) (1 - 0) = 0).
  { replace (0 - 0) with 0 by lra. apply atan2_ahead. lra. }
  assert (Hval : baseTurn_targAngle 0 1 false st - angle (position st)
                 = -360 * toRad).
  { unfold st, baseTurn_targAngle. simpl. rewrite Hb. unfold twoPI, toRad.
    repeat case_if; lra. }
  split; [exact Hb |]. split; [exact Hval |]. split.
  - rewrite Hval. unfold toRad. case_Rabs; lra.
  - destruct (baseTurn_xy_targets c 0 1 kp kd false st) as [HL HR].
    rewrite Hval in HL, HR. split; assumption.
Qed.

(** C10.  [baseTurn(angleDeg, kp, kd)] turns by
    [angleDeg * toRad - position.angle] as it is, with no wrap.  At heading
    170 degrees a request for the bearing -170 degrees makes it add the
    encoder delta of a rotation of -340 degrees, more than half a turn,
    where [baseTurn(x, y, ...)] towards a point at that same bearing adds
    the delta of +20 degrees. *)
Theorem baseTurn_absolute_does_not_wrap (c : Constants) (kp kd : R) :
  (forall (st : Robot) (angleDeg : R),
      let error := angleDeg * toRad - angle (position st) in
      targetEncdL (baseTurn c angleDeg kp kd st)
        = targetEncdL st + error * baseWidth c / inPerDeg c / 2 /\
      targetEncdR (baseTurn c angleDeg kp kd st)
        = targetEncdR st + - (error * baseWidth c / inPerDeg c) / 2) /\
  let st := at_pose 0 0 (170 * toRad) in
  let x := sin (-170 * toRad) in
  let y := cos (-170 * toRad) in
  atan2 (x - pos_x (position st)) (y - pos_y (position st)) = -170 * toRad /\
  -170 * toRad - angle (position st) = -340 * toRad /\
  Rabs (-340 * toRad) > PI /\
  targetEncdL (baseTurn c (-170) kp kd st)
    = targetEncdL st + -340 * toRad * baseWidth c / inPerDeg c / 2 /\
  targetEncdR (baseTurn c (-170) kp kd st)
    = targetEncdR st + - (-340 * toRad * baseWidth c / inPerDeg c) / 2 /\
  targetEncdL (baseTurn_xy c x y kp kd false st)
    = targetEncdL st + 20 * toRad * baseWidth c / inPerDeg c / 2 /\
  targetEncdR (baseTurn_xy c x y kp kd false st)
    = targetEncdR st + - (20 * toRad * baseWidth c / inPerDeg c) / 2.
Proof.
  pose proof PI_pos as Hpi.
  split.
  { intros st angleDeg error. unfold baseTurn. simpl. fold error.
    split; lra. }
  intros st x y.
  assert (Hbear : atan2 (x - pos_x (position st)) (y - pos_y (position st))
                  = -170 * toRad).
  { simpl. unfold x, y.
    replace (sin (-170 * toRad) - 0) with (1 * sin (-170 * toRad)) by lra.
    replace (cos (-170 * toRad) - 0) with (1 * cos (-170 * toRad)) by lra.
    apply atan2_polar; [lra |]. unfold toRad. lra. }
  assert (Hxy : baseTurn_targAngle x y false st - angle (position st)
                = 20 * toRad).
  { destruct (baseTurn_targAngle_cases x y false st) as (_ & H3 & _).
    rewrite H3; rewrite Hbear; simpl; unfold twoPI, toRad; lra. }
  split; [exact Hbear |].
  split; [simpl; lra |].
  split; [unfold toRad; case_Rabs; lra |].
  split; [unfold baseTurn; simpl; lra |].
  split; [unfold baseTurn; simpl; lra |].
  destruct (baseTurn_xy_targets c x y kp kd false st) as [Hl Hr].
  rewrite Hxy in Hl, Hr. split; assumption.
Qed.

(** ** The PD task *)

(** The loop runs its body on what the previous ticks left. *)
Lemma task_loop_last {L : Type} (tick : L -> Robot -> L * Robot)
  (env : list Env) (e : Env) (loc : L) (st : Robot) :
  task_loop tick (env ++ [e]) loc st
  = tick (fst (task_loop tick env loc st))
         (e (snd (task_loop tick env loc st))).
Proof.
  revert loc st. induction env as [| e0 env IH]; intros loc st; simpl.
  - destruct (tick loc (e st)); reflexivity.
  - destruct (tick loc (e0 st)) as [loc1 st1]. apply IH.
Qed.

(** C4.  On every tick of [baseControl] the power written for a side is
    [kP * error + kD * (error - previous error)], where [error] is the
    target encoder value minus the encoder reading and the previous error is
    the error of the preceding tick, which the tick stores; it is 0 on the
    first tick.  With target 100, reading 0, [kP = 1] and [kD = 0] the
    first tick writes 100; a second tick with the reading at 100 writes
    0. *)
Theorem baseControl_pd_law :
  (forall (loc : PrevError) (st : Robot),
      let errorL := targetEncdL st - get_position (BL st) in
      let errorR := targetEncdR st - get_position (BR st) in
      targetPowerL (snd (baseControl_tick loc st))
        = kP st * errorL + kD st * (errorL - prevErrorEncdL loc) /\
      targetPowerR (snd (baseControl_tick loc st))
        = kP st * errorR + kD st * (errorR - prevErrorEncdR loc) /\
      fst (baseControl_tick loc st) = mkPrevError errorL errorR) /\
  (forall (env : list Env) (e : Env) (st : Robot),
      baseControl (env ++ [e]) st
      = baseControl_tick (fst (baseControl env st))
                         (e (snd (baseControl env st)))) /\
  (forall st : Robot, fst (baseControl [] st) = mkPrevError 0 0) /\
  (let st := set_gains 1 0 (set_targetEncd 100 100 power_on) in
   targetPowerL (snd (baseControl [quiet] st)) = 100 /\
   targetPowerR (snd (baseControl [quiet] st)) = 100 /\
   targetPowerL (snd (baseControl [quiet; encoders_reach 100 100] st)) = 0 /\
   targetPowerR (snd (baseControl [quiet; encoders_reach 100 100] st)) = 0).
Proof.
  split; [| split; [| split]].
  - intros loc st errorL errorR. unfold baseControl_tick. simpl.
    fold errorL. fold errorR. repeat split; reflexivity.
  - intros env e st. unfold baseControl. apply task_loop_last.
  - intros st. reflexivity.
  - unfold baseControl. simpl. repeat split; lra.
Qed.

(** ** The blocking wait *)

(** What the loop of [waitBase] guarantees when it is left: one side is
    within the tolerance, or the cutoff has elapsed. *)
Lemma waitBase_loop_exit (c : Constants) (cutoff start : R)
  (polls : list (Env * R)) :
  forall (delays : nat) (st : Robot) (n : nat) (now : R) (st' : Robot),
    waitBase_loop c cutoff start polls delays st = Some (n, now, st') ->
    Rabs (targetEncdL st' - get_position (BL st')) <= DISTANCE_LEEWAY c \/
    Rabs (targetEncdR st' - get_position (BR st')) <= DISTANCE_LEEWAY c \/
    cutoff <= now - start.
Proof.
  induction polls as [| [e t] polls IH]; intros delays st n now st' H.
  - discriminate.
  - simpl in H.
    destruct (Rgt_dec (Rabs (targetEncdL (e st) - get_position (BL (e st))))
                      (DISTANCE_LEEWAY c)) as [HL | HL].
    + destruct (Rgt_dec
                  (Rabs (targetEncdR (e st) - get_position (BR (e st))))
                  (DISTANCE_LEEWAY c)) as [HR | HR].
      * destruct (Rlt_dec (t - start) cutoff) as [HT | HT].
        -- exact (IH _ _ _ _ _ H).
        -- injection H as _ <- <-. right. right. lra.
      * injection H as _ _ <-. right. left. lra.
    + injection H as _ _ <-. left. lra.
Qed.

(** C1, the code at a failing input.  The left side is on target, the
    right side is more than the tolerance away and no time has passed: the
    first evaluation of the loop condition leaves the loop, without a
    single delay, and [waitBase] stops the motors. *)
Theorem waitBase_leaves_with_one_side_arrived (c : Constants) :
  0 <= DISTANCE_LEEWAY c ->
  let st := set_targetEncd 0 (DISTANCE_LEEWAY c + 1) power_on in
  waitBase_loop c 1000 0 [(quiet, 0)] 0 st = Some (0%nat, 0, st) /\
  waitBase c 1000 0 [(quiet, 0)] st = Some (stop_motors st) /\
  Rabs (targetEncdL st - get_position (BL st)) <= DISTANCE_LEEWAY c /\
  Rabs (targetEncdR st - get_position (BR st)) > DISTANCE_LEEWAY c /\
  0 - 0 < 1000.
Proof.
  intros Hl st.
  assert (HL : Rabs (targetEncdL st - get_position (BL st))
               <= DISTANCE_LEEWAY c).
  { simpl. case_Rabs; lra. }
  assert (HR : Rabs (targetEncdR st - get_position (BR st))
               > DISTANCE_LEEWAY c).
  { simpl. case_Rabs; lra. }
  assert (Hloop : waitBase_loop c 1000 0 [(quiet, 0)] 0 st
                  = Some (0%nat, 0, st)).
  { unfold waitBase_loop, quiet.
    destruct (Rgt_dec (Rabs (targetEncdL st - get_position (BL st)))
                      (DISTANCE_LEEWAY c)) as [Hgt | _]; [lra | reflexivity]. }
  split; [exact Hloop |]. split.
  - unfold waitBase. rewrite Hloop. reflexivity.
  - split; [exact HL |]. split; [exact HR | lra].
Qed.

Lemma waitBase_leaves_with_one_side_arrived_witness :
  let st := set_targetEncd 0 16 power_on in
  waitBase_loop bench 1000 0 [(quiet, 0)] 0 st = Some (0%nat, 0, st) /\
  Rabs (targetEncdR st - get_position (BR st)) > 15.
Proof.
  assert (Hl : 0 <= DISTANCE_LEEWAY bench) by (simpl; lra).
  destruct (waitBase_leaves_with_one_side_arrived bench Hl)
    as (Hloop & _ & _ & HR & _).
  replace (DISTANCE_LEEWAY bench + 1) with 16 in Hloop, HR by (simpl; lra).
  split; [exact Hloop | exact HR].
Defined.

(** ** The power task *)

Section MotorControlFacts.

Variable c : Constants.

Lemma tick_power (loc : Power) (st : Robot) :
  fst (baseMotorControl_tick c loc st)
  = mkPower (shaped (RAMPING_POW c) (power_limit c st)
                    (targetPowerL st) (powerL loc))
            (shaped (RAMPING_POW c) (power_limit c st)
                    (targetPowerR st) (powerR loc)).
Proof.
  unfold baseMotorControl_tick, shaped, power_limit.
  destruct (basePowCapped st); reflexivity.
Qed.

Lemma tick_paused (loc : Power) (st : Robot) :
  basePaused st = true -> snd (baseMotorControl_tick c loc st) = st.
Proof.
  intros Hp. unfold baseMotorControl_tick. rewrite Hp. reflexivity.
Qed.

Lemma tick_running (loc : Power) (st : Robot) :
  basePaused st = false ->
  let p := fst (baseMotorControl_tick c loc st) in
  snd (baseMotorControl_tick c loc st)
  = set_motors (move (powerL p) (FL st)) (move (powerL p) (BL st))
               (move (powerR p) (FR st)) (move (powerR p) (BR st)) st.
Proof.
  intros Hp. unfold baseMotorControl_tick. rewrite Hp. reflexivity.
Qed.

(** A tick writes to the motors and to nothing else. *)
Lemma tick_frame (loc : Power) (st : Robot) :
  same_requests (snd (baseMotorControl_tick c loc st)) st /\
  basePaused (snd (baseMotorControl_tick c loc st)) = basePaused st.
Proof.
  unfold baseMotorControl_tick, same_requests.
  destruct (basePaused st) eqn:Hp; simpl; repeat split;
    solve [reflexivity | exact Hp].
Qed.

Lemma power_limit_ext (s1 s2 : Robot) :
  same_requests s1 s2 -> power_limit c s1 = power_limit c s2.
Proof.
  intros (_ & _ & Hc & Ha). unfold power_limit. rewrite Hc, Ha. reflexivity.
Qed.

Lemma tick_power_ext (loc : Power) (s1 s2 : Robot) :
  same_requests s1 s2 ->
  fst (baseMotorControl_tick c loc s1) = fst (baseMotorControl_tick c loc s2).
Proof.
  intros Hs. rewrite !tick_power, (power_limit_ext s1 s2 Hs).
  destruct Hs as (-> & -> & _ & _). reflexivity.
Qed.

Lemma tick_after_cap (loc : Power) (cap : R) (st : Robot) :
  powerL (fst (baseMotorControl_tick c loc (capBasePow cap st)))
  = shaped (RAMPING_POW c) cap (targetPowerL st) (powerL loc).
Proof. rewrite tick_power. reflexivity. Qed.

Lemma baseMotorControl_last (env : list Env) (e : Env) (st : Robot) :
  baseMotorControl c (env ++ [e]) st
  = baseMotorControl_tick c (fst (baseMotorControl c env st))
                            (e (snd (baseMotorControl c env st))).
Proof. unfold baseMotorControl. apply task_loop_last. Qed.

(** With nothing else happening, the requests stay as they are. *)
Lemma quiet_run_frame (n : nat) (st : Robot) :
  same_requests (snd (baseMotorControl c (repeat quiet n) st)) st /\
  basePaused (snd (baseMotorControl c (repeat quiet n) st)) = basePaused st.
Proof.
  induction n as [| n [IHr IHp]].
  - unfold same_requests. simpl. repeat split; reflexivity.
  - change (repeat quiet (S n)) with (quiet :: repeat quiet n).
    rewrite repeat_cons, baseMotorControl_last.
    set (r := baseMotorControl c (repeat quiet n) st) in *.
    change (quiet (snd r)) with (snd r).
    destruct (tick_frame (fst r) (snd r)) as [Hr Hp].
    split.
    + unfold same_requests in *. intuition congruence.
    + congruence.
Qed.

Lemma quiet_run_step (n : nat) (st : Robot) :
  let p := fst (baseMotorControl c (repeat quiet n) st) in
  fst (baseMotorControl c (repeat quiet (S n)) st)
  = mkPower (shaped (RAMPING_POW c) (power_limit c st)
                    (targetPowerL st) (powerL p))
            (shaped (RAMPING_POW c) (power_limit c st)
                    (targetPowerR st) (powerR p)).
Proof.
  intros p.
  change (repeat quiet (S n)) with (quiet :: repeat quiet n).
  rewrite repeat_cons, baseMotorControl_last.
  change (quiet (snd (baseMotorControl c (repeat quiet n) st)))
    with (snd (baseMotorControl c (repeat quiet n) st)).
  destruct (quiet_run_frame n st) as [Hr _].
  rewrite (tick_power_ext _ _ st Hr). apply tick_power.
Qed.

End MotorControlFacts.

(** The ramp and the clamp on one side. *)
Lemma shaped_step (ramp lim target p : R) :
  0 <= ramp -> Rabs p <= lim ->
  Rabs (shaped ramp lim target p - p) <= ramp.
Proof.
  intros Hr Hp. unfold shaped, abscap.
  repeat case_if; case_Rabs; lra.
Qed.

Lemma shaped_range (ramp lim target p : R) :
  0 <= lim -> Rabs (shaped ramp lim target p) <= lim.
Proof.
  intros Hl. unfold shaped.
  pose proof (abscap_range (p + abscap (target - p) ramp) lim Hl).
  case_Rabs; lra.
Qed.

Lemma shaped_up (ramp lim target a : R) :
  0 <= ramp -> 0 <= lim -> 0 <= target -> 0 <= a ->
  shaped ramp lim target (Rmin a (Rmin target lim))
  = Rmin (a + ramp) (Rmin target lim).
Proof.
  intros Hr Hl Ht Ha. unfold shaped, abscap, Rmin.
  repeat case_if; lra.
Qed.

Lemma shaped_down (ramp lim target a : R) :
  0 <= ramp -> 0 <= lim -> target <= 0 -> 0 <= a ->
  shaped ramp lim target (Rmax (- a) (Rmax target (- lim)))
  = Rmax (- (a + ramp)) (Rmax target (- lim)).
Proof.
  intros Hr Hl Ht Ha. unfold shaped, abscap, Rmax.
  repeat case_if; lra.
Qed.

(** A power that starts at 0 and is shaped towards a fixed target of
    positive sign climbs by [ramp] a tick up to the target or the limit. *)
Lemma ramp_up (ramp lim target : R) (p : nat -> R) :
  0 <= ramp -> 0 <= lim -> 0 <= target ->
  p 0%nat = 0 ->
  (forall n, p (S n) = shaped ramp lim target (p n)) ->
  forall n, p n = Rmin (INR n * ramp) (Rmin target lim).
Proof.
  intros Hr Hl Ht H0 HS. induction n as [| n IH].
  - rewrite H0. simpl. unfold Rmin. repeat case_if; lra.
  - rewrite HS, IH, shaped_up; try assumption.
    + rewrite S_INR. f_equal. ring.
    + apply Rmult_le_pos; [apply pos_INR | assumption].
Qed.

Lemma ramp_down (ramp lim target : R) (p : nat -> R) :
  0 <= ramp -> 0 <= lim -> target <= 0 ->
  p 0%nat = 0 ->
  (forall n, p (S n) = shaped ramp lim target (p n)) ->
  forall n, p n = Rmax (- (INR n * ramp)) (Rmax target (- lim)).
Proof.
  intros Hr Hl Ht H0 HS. induction n as [| n IH].
  - rewrite H0. simpl. unfold Rmax. repeat case_if; lra.
  - rewrite HS, IH, shaped_down; try assumption.
    + rewrite S_INR. f_equal. f_equal. ring.
    + apply Rmult_le_pos; [apply pos_INR | assumption].
Qed.

Section MotorControlRuns.

Variable c : Constants.

Lemma quiet_run_powerL (n : nat) (st : Robot) :
  powerL (fst (baseMotorControl c (repeat quiet (S n)) st))
  = shaped (RAMPING_POW c) (power_limit c st) (targetPowerL st)
           (powerL (fst (baseMotorControl c (repeat quiet n) st))).
Proof. rewrite quiet_run_step. reflexivity. Qed.

Lemma quiet_run_powerR (n : nat) (st : Robot) :
  powerR (fst (baseMotorControl c (repeat quiet (S n)) st))
  = shaped (RAMPING_POW c) (power_limit c st) (targetPowerR st)
           (powerR (fst (baseMotorControl c (repeat quiet n) st))).
Proof. rewrite quiet_run_step. reflexivity. Qed.

(** While the cap is left alone the powers stay within the limit. *)
Lemma run_within_limit (env : list Env) (st : Robot) :
  0 <= power_limit c st ->
  Forall keeps_cap env ->
  power_limit c (snd (baseMotorControl c env st)) = power_limit c st /\
  Rabs (powerL (fst (baseMotorControl c env st))) <= power_limit c st /\
  Rabs (powerR (fst (baseMotorControl c env st))) <= power_limit c st.
Proof.
  intros Hl. induction env as [| e env IH] using rev_ind; intros Hk.
  - simpl. rewrite Rabs_R0. repeat split; lra.
  - apply Forall_app in Hk. destruct Hk as [Hk He].
    destruct (IH Hk) as (Hlim & _ & _).
    inversion_clear He as [| ? ? He1 _].
    rewrite baseMotorControl_last.
    set (r := baseMotorControl c env st) in *.
    assert (Hnow : power_limit c (e (snd r)) = power_limit c st).
    { rewrite <- Hlim. unfold power_limit.
      destruct (He1 (snd r)) as [-> ->]. reflexivity. }
    split.
    + rewrite (power_limit_ext c _ (e (snd r))); [exact Hnow |].
      apply tick_frame.
    + rewrite tick_power, Hnow. simpl.
      split; apply shaped_range; exact Hl.
Qed.

End MotorControlRuns.

(** C5 (amended).  On a tick of [baseMotorControl] the power of a side
    changes by at most [RAMPING_POW] in absolute value, however far the
    target power lies, provided the power the side had was within the bound
    the tick clamps to.  The tick leaves the power within that bound, so the
    proviso holds on every tick of a run in which the cap is left alone.
    With the target power at 100, a ramp of 15 and no cap below 100, the
    power after [n] ticks is the smaller of [15 * n] and 100: 15, 30, 45,
    ..., never decreasing, never above 100. *)
Theorem baseMotorControl_slew_rate (c : Constants) :
  0 <= RAMPING_POW c ->
  (forall (loc : Power) (st : Robot),
      Rabs (powerL loc) <= power_limit c st ->
      Rabs (powerL (fst (baseMotorControl_tick c loc st)) - powerL loc)
      <= RAMPING_POW c) /\
  (forall (loc : Power) (st : Robot),
      Rabs (powerR loc) <= power_limit c st ->
      Rabs (powerR (fst (baseMotorControl_tick c loc st)) - powerR loc)
      <= RAMPING_POW c) /\
  (forall (loc : Power) (st : Robot),
      0 <= power_limit c st ->
      Rabs (powerL (fst (baseMotorControl_tick c loc st)))
      <= power_limit c st /\
      Rabs (powerR (fst (baseMotorControl_tick c loc st)))
      <= power_limit c st) /\
  (forall (env : list Env) (e : Env) (st : Robot),
      0 <= power_limit c st ->
      Forall keeps_cap (env ++ [e]) ->
      Rabs (powerL (fst (baseMotorControl c (env ++ [e]) st))
            - powerL (fst (baseMotorControl c env st))) <= RAMPING_POW c /\
      Rabs (powerR (fst (baseMotorControl c (env ++ [e]) st))
            - powerR (fst (baseMotorControl c env st))) <= RAMPING_POW c) /\
  (RAMPING_POW c = 15 -> 100 <= MAX_POW c ->
   let p := fun n : nat =>
     fst (baseMotorControl c (repeat quiet n)
                           (set_targetPower 100 100 power_on)) in
   (forall n, powerL (p n) = Rmin (15 * INR n) 100 /\
              powerR (p n) = Rmin (15 * INR n) 100 /\
              powerL (p n) <= powerL (p (S n)) <= 100) /\
   powerL (p 1%nat) = 15 /\ powerL (p 2%nat) = 30 /\
   powerL (p 3%nat) = 45 /\ powerL (p 7%nat) = 100).
Proof.
  intros Hr.
  assert (HtL : forall (loc : Power) (st : Robot),
             Rabs (powerL loc) <= power_limit c st ->
             Rabs (powerL (fst (baseMotorControl_tick c loc st)) - powerL loc)
             <= RAMPING_POW c).
  { intros loc st Hp. rewrite tick_power. simpl.
    apply shaped_step; assumption. }
  assert (HtR : forall (loc : Power) (st : Robot),
             Rabs (powerR loc) <= power_limit c st ->
             Rabs (powerR (fst (baseMotorControl_tick c loc st)) - powerR loc)
             <= RAMPING_POW c).
  { intros loc st Hp. rewrite tick_power. simpl.
    apply shaped_step; assumption. }
  split; [exact HtL |]. split; [exact HtR |]. split; [| split].
  - intros loc st Hl. rewrite tick_power. simpl.
    split; apply shaped_range; exact Hl.
  - intros env e st Hl Hk.
    apply Forall_app in Hk. destruct Hk as [Hk He].
    inversion_clear He as [| ? ? He1 _].
    destruct (run_within_limit c env st Hl Hk) as (Hlim & HL & HR).
    rewrite baseMotorControl_last.
    set (r := baseMotorControl c env st) in *.
    assert (Hnow : power_limit c (e (snd r)) = power_limit c st).
    { rewrite <- Hlim. unfold power_limit.
      destruct (He1 (snd r)) as [-> ->]. reflexivity. }
    split; [apply HtL | apply HtR]; rewrite Hnow; assumption.
  - intros H15 Hmax p.
    assert (HL : forall n, powerL (p n) = Rmin (15 * INR n) 100).
    { intros n.
      rewrite (ramp_up (RAMPING_POW c) (MAX_POW c) 100
                       (fun k => powerL (p k))); try lra.
      - rewrite H15. unfold Rmin. repeat case_if; lra.
      - reflexivity.
      - intros k. unfold p. rewrite quiet_run_powerL. reflexivity. }
    assert (HR : forall n, powerR (p n) = Rmin (15 * INR n) 100).
    { intros n.
      rewrite (ramp_up (RAMPING_POW c) (MAX_POW c) 100
                       (fun k => powerR (p k))); try lra.
      - rewrite H15. unfold Rmin. repeat case_if; lra.
      - reflexivity.
      - intros k. unfold p. rewrite quiet_run_powerR. reflexivity. }
    split.
    + intros n. split; [apply HL |]. split; [apply HR |].
      rewrite !HL, S_INR. pose proof (pos_INR n).
      unfold Rmin. repeat case_if; lra.
    + rewrite !HL. simpl INR. unfold Rmin.
      repeat split; repeat case_if; lra.
Qed.

Lemma baseMotorControl_slew_rate_witness :
  let st := set_targetPower 100 100 power_on in
  Rabs (powerL (fst (baseMotorControl_tick bench (mkPower 0 0) st)) - 0)
  <= 15 /\
  powerL (fst (baseMotorControl bench (repeat quiet 3) st)) = 45.
Proof.
  intros st.
  assert (Hr : 0 <= RAMPING_POW bench) by (simpl; lra).
  destruct (baseMotorControl_slew_rate bench Hr) as (HtL & _ & _ & _ & Hex).
  split.
  - apply (HtL (mkPower 0 0) st). simpl powerL. rewrite Rabs_R0.
    change (0 <= 127). lra.
  - assert (Hmax : 100 <= MAX_POW bench) by (simpl; lra).
    destruct (Hex eq_refl Hmax) as (_ & _ & _ & H3 & _). exact H3.
Defined.

(** The claim C5 as written, for every tick, fails when a cap is set below
    the power already applied: with a ramp of 15 and full scale 127, seven
    ticks towards the target power 100 bring the power to 100; the
    autonomous routine then calls [capBasePow(50)], and the next tick takes
    the power from 100 to 50 at once. *)
Lemma slew_rate_counterexample :
  let st := set_targetPower 100 100 power_on in
  let before := fst (baseMotorControl bench (repeat quiet 7) st) in
  let after :=
    fst (baseMotorControl bench (repeat quiet 7 ++ [capBasePow 50]) st) in
  powerL before = 100 /\
  powerL after = 50 /\
  ~ Rabs (powerL after - powerL before) <= RAMPING_POW bench.
Proof.
  intros st before after.
  assert (Hb : powerL before = 100).
  { unfold before.
    rewrite (ramp_up 15 127 100
               (fun k => powerL (fst (baseMotorControl bench
                                        (repeat quiet k) st)))); try lra.
    - simpl INR. unfold Rmin. repeat case_if; lra.
    - reflexivity.
    - intros k. rewrite quiet_run_powerL. reflexivity. }
  assert (Ha : powerL after = 50).
  { unfold after. rewrite baseMotorControl_last, tick_after_cap.
    fold before. rewrite Hb.
    destruct (quiet_run_frame bench 7 st) as [(Hl & _) _].
    rewrite Hl.
    change (shaped 15 50 100 100 = 50).
    unfold shaped, abscap. repeat case_if; lra. }
  split; [exact Hb |]. split; [exact Ha |].
  rewrite Ha, Hb. simpl RAMPING_POW. case_Rabs; lra.
Qed.

Section MotorControlWrites.

Variable c : Constants.

(** A tick of the running loop tells each motor the power of its side. *)
Lemma tick_commanded (loc : Power) (st : Robot) :
  basePaused st = false ->
  let p := fst (baseMotorControl_tick c loc st) in
  commanded (snd (baseMotorControl_tick c loc st))
  = (powerL p :: moves (FL st), powerL p :: moves (BL st),
     powerR p :: moves (FR st), powerR p :: moves (BR st)).
Proof.
  intros Hp p. rewrite (tick_running c loc st Hp). reflexivity.
Qed.

Lemma quiet_run_paused (n : nat) (st : Robot) :
  basePaused st = true ->
  snd (baseMotorControl c (repeat quiet n) st) = st.
Proof.
  intros Hp. induction n as [| n IH].
  - reflexivity.
  - change (repeat quiet (S n)) with (quiet :: repeat quiet n).
    rewrite repeat_cons, baseMotorControl_last, IH.
    apply tick_paused. exact Hp.
Qed.

(** The running loop's last write is the power it holds. *)
Lemma quiet_run_last_write (n : nat) (st : Robot) :
  basePaused st = false ->
  let r := baseMotorControl c (repeat quiet (S n)) st in
  last_commanded (snd r)
  = (powerL (fst r), powerL (fst r), powerR (fst r), powerR (fst r)).
Proof.
  intros Hp r. unfold r.
  change (repeat quiet (S n)) with (quiet :: repeat quiet n).
  rewrite repeat_cons, baseMotorControl_last.
  set (r0 := baseMotorControl c (repeat quiet n) st).
  change (quiet (snd r0)) with (snd r0).
  assert (Hp0 : basePaused (snd r0) = false).
  { destruct (quiet_run_frame c n st) as [_ H]. fold r0 in H. congruence. }
  rewrite (tick_running c (fst r0) (snd r0) Hp0). reflexivity.
Qed.

(** The powers the loop computes depend on the requests only. *)
Lemma requests_run_ext (reqs : list (R * R)) (s1 s2 : Robot) :
  same_requests s1 s2 ->
  fst (baseMotorControl c (requests reqs) s1)
  = fst (baseMotorControl c (requests reqs) s2) /\
  same_requests (snd (baseMotorControl c (requests reqs) s1))
                (snd (baseMotorControl c (requests reqs) s2)).
Proof.
  intros Hs. induction reqs as [| [l r] reqs [IHp IHs]] using rev_ind.
  - split; [reflexivity | exact Hs].
  - unfold requests. rewrite map_app. fold (requests reqs). simpl map.
    rewrite !baseMotorControl_last.
    set (r1 := baseMotorControl c (requests reqs) s1) in *.
    set (r2 := baseMotorControl c (requests reqs) s2) in *.
    assert (He : same_requests (set_targetPower l r (snd r1))
                               (set_targetPower l r (snd r2))).
    { destruct IHs as (_ & _ & Hc & Ha).
      unfold same_requests. simpl. repeat split; assumption. }
    split.
    + rewrite IHp. apply tick_power_ext. exact He.
    + destruct (tick_frame c (fst r1) (set_targetPower l r (snd r1)))
        as [(A1 & A2 & A3 & A4) _].
      destruct (tick_frame c (fst r2) (set_targetPower l r (snd r2)))
        as [(B1 & B2 & B3 & B4) _].
      destruct He as (E1 & E2 & E3 & E4).
      unfold same_requests. repeat split; congruence.
Qed.

(** A paused loop leaves the motors alone. *)
Lemma requests_run_paused (reqs : list (R * R)) (st : Robot) :
  basePaused st = true ->
  commanded (snd (baseMotorControl c (requests reqs) st)) = commanded st /\
  basePaused (snd (baseMotorControl c (requests reqs) st)) = true.
Proof.
  intros Hp. induction reqs as [| [l r] reqs [IHc IHp]] using rev_ind.
  - split; [reflexivity | exact Hp].
  - unfold requests. rewrite map_app. fold (requests reqs). simpl map.
    rewrite baseMotorControl_last.
    set (r1 := baseMotorControl c (requests reqs) st) in *.
    rewrite tick_paused by exact IHp.
    split; [exact IHc | exact IHp].
Qed.

End MotorControlWrites.

(** C7.  On every tick of [baseMotorControl] the ramped power of each side
    is clamped to plus or minus [absPowerCap] when a cap is set and to plus
    or minus [MAX_POW] otherwise; the clamp keeps the sign, and the running
    loop writes the clamped value to the motors.  Under a cap of 50, a
    ramped power of 50 or more comes out as exactly 50 and one of -50 or
    less as exactly -50; with the target power held at 150 every tick from
    the one at which the ramp has covered 50 outputs exactly 50, and with
    the target power at -150 exactly -50. *)
Theorem baseMotorControl_cap (c : Constants) :
  (forall (loc : Power) (st : Robot),
      let lim := if basePowCapped st then absPowerCap st else MAX_POW c in
      let rampedL :=
        powerL loc + abscap (targetPowerL st - powerL loc) (RAMPING_POW c) in
      let rampedR :=
        powerR loc + abscap (targetPowerR st - powerR loc) (RAMPING_POW c) in
      let p := fst (baseMotorControl_tick c loc st) in
      powerL p = abscap rampedL lim /\
      powerR p = abscap rampedR lim /\
      (0 <= lim ->
         - lim <= powerL p <= lim /\ - lim <= powerR p <= lim /\
         (0 <= rampedL -> 0 <= powerL p) /\ (rampedL <= 0 -> powerL p <= 0) /\
         (0 <= rampedR -> 0 <= powerR p) /\ (rampedR <= 0 -> powerR p <= 0)) /\
      (basePowCapped st = true -> absPowerCap st = 50 ->
         (50 <= rampedL -> powerL p = 50) /\
         (rampedL <= -50 -> powerL p = -50) /\
         (50 <= rampedR -> powerR p = 50) /\
         (rampedR <= -50 -> powerR p = -50)) /\
      (basePaused st = false ->
         commanded (snd (baseMotorControl_tick c loc st))
         = (powerL p :: moves (FL st), powerL p :: moves (BL st),
            powerR p :: moves (FR st), powerR p :: moves (BR st)))) /\
  (forall n : nat,
      50 <= INR n * RAMPING_POW c ->
      fst (baseMotorControl c (repeat quiet n)
             (capBasePow 50 (set_targetPower 150 150 power_on)))
      = mkPower 50 50 /\
      last_commanded
        (snd (baseMotorControl c (repeat quiet n)
                (capBasePow 50 (set_targetPower 150 150 power_on))))
      = (50, 50, 50, 50) /\
      fst (baseMotorControl c (repeat quiet n)
             (capBasePow 50 (set_targetPower (-150) (-150) power_on)))
      = mkPower (-50) (-50) /\
      last_commanded
        (snd (baseMotorControl c (repeat quiet n)
                (capBasePow 50 (set_targetPower (-150) (-150) power_on))))
      = (-50, -50, -50, -50)).
Proof.
  split.
  - intros loc st lim rampedL rampedR p.
    assert (HL : powerL p = abscap rampedL lim).
    { unfold p. rewrite tick_power. reflexivity. }
    assert (HR : powerR p = abscap rampedR lim).
    { unfold p. rewrite tick_power. reflexivity. }
    split; [exact HL |]. split; [exact HR |]. split; [| split].
    + intros Hl. rewrite HL, HR. unfold abscap.
      repeat split; repeat case_if; lra.
    + intros Hc Ha. rewrite HL, HR. unfold lim. rewrite Hc, Ha.
      unfold abscap. repeat split; intros; repeat case_if; lra.
    + intros Hp. apply tick_commanded. exact Hp.
  - intros n Hn.
    assert (Hpos : 0 < INR n * RAMPING_POW c) by lra.
    assert (Hr : 0 <= RAMPING_POW c).
    { pose proof (pos_INR n). nra. }
    assert (Hw : forall st : Robot,
               basePaused st = false ->
               forall v : R,
               fst (baseMotorControl c (repeat quiet n) st) = mkPower v v ->
               last_commanded (snd (baseMotorControl c (repeat quiet n) st))
               = (v, v, v, v)).
    { intros st Hp v Hv. destruct n as [| m].
      - simpl in Hpos. lra.
      - rewrite (quiet_run_last_write c m st Hp), Hv. reflexivity. }
    assert (Hup : fst (baseMotorControl c (repeat quiet n)
                         (capBasePow 50 (set_targetPower 150 150 power_on)))
                  = mkPower 50 50);
      [| assert (Hdown : fst (baseMotorControl c (repeat quiet n)
                                (capBasePow 50
                                   (set_targetPower (-150) (-150) power_on)))
                         = mkPower (-50) (-50));
         [| split; [exact Hup |];
            split; [apply Hw; [reflexivity | exact Hup] |];
            split; [exact Hdown |];
            apply Hw; [reflexivity | exact Hdown] ] ].
    + set (st := capBasePow 50 (set_targetPower 150 150 power_on)).
      assert (HL : powerL (fst (baseMotorControl c (repeat quiet n) st)) = 50).
      { rewrite (ramp_up (RAMPING_POW c) 50 150
                   (fun k => powerL (fst (baseMotorControl c
                                            (repeat quiet k) st))));
          try lra.
        - unfold Rmin. repeat case_if; lra.
        - reflexivity.
        - intros k. rewrite quiet_run_powerL. reflexivity. }
      assert (HR : powerR (fst (baseMotorControl c (repeat quiet n) st)) = 50).
      { rewrite (ramp_up (RAMPING_POW c) 50 150
                   (fun k => powerR (fst (baseMotorControl c
                                            (repeat quiet k) st))));
          try lra.
        - unfold Rmin. repeat case_if; lra.
        - reflexivity.
        - intros k. rewrite quiet_run_powerR. reflexivity. }
      destruct (fst (baseMotorControl c (repeat quiet n) st)) as [pl pr].
      simpl in HL, HR. subst. reflexivity.
    + set (st := capBasePow 50 (set_targetPower (-150) (-150) power_on)).
      assert (HL : powerL (fst (baseMotorControl c (repeat quiet n) st))
                   = -50).
      { rewrite (ramp_down (RAMPING_POW c) 50 (-150)
                   (fun k => powerL (fst (baseMotorControl c
                                            (repeat quiet k) st))));
          try lra.
        - unfold Rmax. repeat case_if; lra.
        - reflexivity.
        - intros k. rewrite quiet_run_powerL. reflexivity. }
      assert (HR : powerR (fst (baseMotorControl c (repeat quiet n) st))
                   = -50).
      { rewrite (ramp_down (RAMPING_POW c) 50 (-150)
                   (fun k => powerR (fst (baseMotorControl c
                                            (repeat quiet k) st))));
          try lra.
        - unfold Rmax. repeat case_if; lra.
        - reflexivity.
        - intros k. rewrite quiet_run_powerR. reflexivity. }
      destruct (fst (baseMotorControl c (repeat quiet n) st)) as [pl pr].
      simpl in HL, HR. subst. reflexivity.
Qed.

Lemma baseMotorControl_cap_witness :
  last_commanded
    (snd (baseMotorControl bench (repeat quiet 4)
            (capBasePow 50 (set_targetPower 150 150 power_on))))
  = (50, 50, 50, 50) /\
  last_commanded
    (snd (baseMotorControl bench (repeat quiet 4)
            (capBasePow 50 (set_targetPower (-150) (-150) power_on))))
  = (-50, -50, -50, -50).
Proof.
  destruct (baseMotorControl_cap bench) as [_ Hrun].
  assert (H4 : 50 <= INR 4 * RAMPING_POW bench) by (simpl; lra).
  destruct (Hrun 4%nat H4) as (_ & Hup & _ & Hdown).
  split; [exact Hup | exact Hdown].
Defined.

(** C8.  While [basePaused] is set a tick of [baseMotorControl] writes to
    no motor and leaves the state as it is, yet computes the same ramped
    and clamped powers as a tick of the running loop.  Over any sequence of
    target-power requests the paused loop therefore commands nothing and
    holds the powers the running loop would hold.  On the first tick after
    the flag is cleared each motor is told the power reached by one more
    step from those, the power the running loop would have written on that
    tick.  With a ramp of 15 and the target power at 100, seven paused
    ticks bring the power to 100 with no write, and the first tick after
    the flag is cleared writes 100 to the four motors. *)
Theorem baseMotorControl_pause (c : Constants) :
  (forall (loc : Power) (st : Robot),
      basePaused st = true ->
      snd (baseMotorControl_tick c loc st) = st /\
      fst (baseMotorControl_tick c loc st)
      = fst (baseMotorControl_tick c loc (pauseBase false st))) /\
  (forall (reqs : list (R * R)) (st : Robot),
      basePaused st = true ->
      commanded (snd (baseMotorControl c (requests reqs) st))
      = commanded st /\
      fst (baseMotorControl c (requests reqs) st)
      = fst (baseMotorControl c (requests reqs) (pauseBase false st))) /\
  (forall (reqs : list (R * R)) (st : Robot),
      basePaused st = true ->
      let resumed :=
        baseMotorControl c (requests reqs ++ [pauseBase false]) st in
      fst resumed
      = fst (baseMotorControl c (requests reqs ++ [quiet])
                              (pauseBase false st)) /\
      commanded (snd resumed)
      = (powerL (fst resumed) :: moves (FL st),
         powerL (fst resumed) :: moves (BL st),
         powerR (fst resumed) :: moves (FR st),
         powerR (fst resumed) :: moves (BR st))) /\
  (RAMPING_POW c = 15 -> 100 <= MAX_POW c ->
   let st := pauseBase true (set_targetPower 100 100 power_on) in
   let paused := baseMotorControl c (repeat quiet 7) st in
   let resumed :=
     baseMotorControl c (repeat quiet 7 ++ [pauseBase false]) st in
   fst paused = mkPower 100 100 /\
   commanded (snd paused) = ([], [], [], []) /\
   fst resumed = mkPower 100 100 /\
   commanded (snd resumed) = ([100], [100], [100], [100])).
Proof.
  split; [| split; [| split]].
  - intros loc st Hp. split.
    + apply tick_paused. exact Hp.
    + apply tick_power_ext. unfold same_requests. simpl.
      repeat split; reflexivity.
  - intros reqs st Hp. split.
    + apply requests_run_paused. exact Hp.
    + apply requests_run_ext. unfold same_requests. simpl.
      repeat split; reflexivity.
  - intros reqs st Hp resumed. unfold resumed.
    rewrite !baseMotorControl_last.
    destruct (requests_run_paused c reqs st Hp) as [Hcmd _].
    destruct (requests_run_ext c reqs st (pauseBase false st)) as [Hpow Hreq].
    { unfold same_requests. simpl. repeat split; reflexivity. }
    set (r1 := baseMotorControl c (requests reqs) st) in *.
    set (r2 := baseMotorControl c (requests reqs) (pauseBase false st)) in *.
    split.
    + rewrite Hpow. apply tick_power_ext.
      destruct Hreq as (H1 & H2 & H3 & H4).
      unfold same_requests, quiet. simpl. repeat split; assumption.
    + rewrite tick_commanded by reflexivity.
      unfold commanded in Hcmd. injection Hcmd as H1 H2 H3 H4.
      change (pauseBase false (snd r1))
        with (set_basePaused false (snd r1)).
      set (p := fst (baseMotorControl_tick c (fst r1)
                       (set_basePaused false (snd r1)))).
      change (FL (set_basePaused false (snd r1))) with (FL (snd r1)).
      change (BL (set_basePaused false (snd r1))) with (BL (snd r1)).
      change (FR (set_basePaused false (snd r1))) with (FR (snd r1)).
      change (BR (set_basePaused false (snd r1))) with (BR (snd r1)).
      rewrite H1, H2, H3, H4. reflexivity.
  - intros H15 Hmax st paused resumed.
    assert (Hst : snd paused = st).
    { apply quiet_run_paused. reflexivity. }
    assert (HL : powerL (fst paused) = 100).
    { unfold paused.
      rewrite (ramp_up (RAMPING_POW c) (MAX_POW c) 100
                 (fun k => powerL (fst (baseMotorControl c
                                          (repeat quiet k) st))));
        try lra.
      - rewrite H15. simpl INR. unfold Rmin. repeat case_if; lra.
      - reflexivity.
      - intros k. rewrite quiet_run_powerL. reflexivity. }
    assert (HR : powerR (fst paused) = 100).
    { unfold paused.
      rewrite (ramp_up (RAMPING_POW c) (MAX_POW c) 100
                 (fun k => powerR (fst (baseMotorControl c
                                          (repeat quiet k) st))));
        try lra.
      - rewrite H15. simpl INR. unfold Rmin. repeat case_if; lra.
      - reflexivity.
      - intros k. rewrite quiet_run_powerR. reflexivity. }
    assert (Hres : fst resumed = mkPower 100 100).
    { unfold resumed. rewrite baseMotorControl_last. fold paused.
      rewrite Hst, tick_power, HL, HR.
      change (mkPower (shaped (RAMPING_POW c) (MAX_POW c) 100 100)
                      (shaped (RAMPING_POW c) (MAX_POW c) 100 100)
              = mkPower 100 100).
      assert (Hs : shaped (RAMPING_POW c) (MAX_POW c) 100 100 = 100).
      { rewrite H15. unfold shaped, abscap. repeat case_if; lra. }
      rewrite Hs. reflexivity. }
    split; [| split; [| split]].
    + destruct (fst paused) as [pl pr]. simpl in HL, HR. subst.
      reflexivity.
    + rewrite Hst. reflexivity.
    + exact Hres.
    + revert Hres. unfold resumed. rewrite baseMotorControl_last.
      fold paused. rewrite Hst. intros Hres.
      rewrite tick_commanded by reflexivity. rewrite Hres. reflexivity.
Qed.

Lemma baseMotorControl_pause_witness :
  let st := pauseBase true (set_targetPower 100 100 power_on) in
  commanded (snd (baseMotorControl bench (repeat quiet 7) st))
  = ([], [], [], []) /\
  commanded
    (snd (baseMotorControl bench (repeat quiet 7 ++ [pauseBase false]) st))
  = ([100], [100], [100], [100]).
Proof.
  intros st.
  destruct (baseMotorControl_pause bench) as (_ & _ & _ & Hex).
  assert (Hmax : 100 <= MAX_POW bench) by (simpl; lra).
  destruct (Hex eq_refl Hmax) as (_ & Hp & _ & Hr).
  split; [exact Hp | exact Hr].
Defined.

(** ** Resetting the pose *)

(** C9 (amended).  [resetCoords] sets the pose, then tares the four
    motors, then zeroes the two target encoder values: seven writes in a
    row, with nothing that excludes the two tasks meanwhile.  Once it has
    returned the pose is set and the encoders and the targets are all
    zero.  A tick scheduled part-way never finds a target zeroed by the
    reset with an encoder still to tare, since the targets are written
    last; a tick scheduled after the tares and before the target writes
    finds the encoders at zero and the targets as they were. *)
Theorem resetCoords_sequence (x y angleDeg : R) (st : Robot) :
  let done := resetCoords x y angleDeg st in
  (position done = setCoords x y angleDeg (position st) /\
   get_position (FL done) = 0 /\ get_position (FR done) = 0 /\
   get_position (BL done) = 0 /\ get_position (BR done) = 0 /\
   targetEncdL done = 0 /\ targetEncdR done = 0) /\
  (forall k : nat,
      let seen := resetCoords_prefix k x y angleDeg st in
      ((k < 6)%nat ->
         targetEncdL seen = targetEncdL st /\
         targetEncdR seen = targetEncdR st) /\
      ((5 <= k)%nat ->
         get_position (FL seen) = 0 /\ get_position (FR seen) = 0 /\
         get_position (BL seen) = 0 /\ get_position (BR seen) = 0) /\
      ((7 <= k)%nat -> seen = done)) /\
  (let seen := resetCoords_prefix 5 x y angleDeg st in
   get_position (BL seen) = 0 /\ get_position (BR seen) = 0 /\
   targetEncdL seen = targetEncdL st /\ targetEncdR seen = targetEncdR st).
Proof.
  intros done. split; [| split].
  - unfold done, resetCoords, run_steps. simpl. repeat split; reflexivity.
  - intros k seen. unfold seen, resetCoords_prefix, done, resetCoords.
    do 7 (destruct k as [| k];
          [ unfold run_steps; simpl;
            repeat split; intros; solve [reflexivity | lia] |]).
    simpl firstn. rewrite firstn_nil. unfold run_steps. simpl.
    repeat split; intros; solve [reflexivity | lia].
  - unfold resetCoords_prefix, run_steps. simpl. repeat split; reflexivity.
Qed.

(** The claim C9 as written fails: the robot stands on its target, 100
    encoder degrees on each side, with [kP = 1] and [kD = 0], and a tick
    of [baseControl] there asks for no power.  A tick scheduled after the
    fifth statement of [resetCoords] reads the encoders at 0 against the
    targets still at 100, and asks for the power 100; after the reset a
    tick asks for no power again. *)
Lemma resetCoords_interleaving_counterexample :
  let st :=
    encoders_reach 100 100
      (set_gains 1 0 (set_targetEncd 100 100 power_on)) in
  let seen := resetCoords_prefix 5 0 0 0 st in
  get_position (BL seen) = 0 /\ get_position (BR seen) = 0 /\
  targetEncdL seen = 100 /\ targetEncdR seen = 100 /\
  targetPowerL (snd (baseControl_tick baseControl_init st)) = 0 /\
  targetPowerL (snd (baseControl_tick baseControl_init seen)) = 100 /\
  targetPowerR (snd (baseControl_tick baseControl_init seen)) = 100 /\
  targetPowerL
    (snd (baseControl_tick baseControl_init (resetCoords 0 0 0 st))) = 0.
Proof.
  unfold resetCoords_prefix, resetCoords, run_steps. simpl.
  repeat split; lra.
Qed.

(** * Further properties of the code *)

(** ** The blocking wait, continued *)

Section WaitBaseFacts.

Variable c : Constants.
Variables cutoff start : R.

Lemma waitBase_loop_first (polls : list (Env * R)) :
  forall (k : nat) (st : Robot) (d : nat) (t : R) (st' : Robot),
    waitBase_loop c cutoff start polls k st = Some (d, t, st') ->
    (k <= d)%nat /\
    nth_error (seen polls st) (d - k) = Some (t, st') /\
    ~ keeps_waiting c cutoff start (t, st') /\
    Forall (keeps_waiting c cutoff start) (firstn (d - k) (seen polls st)).
Proof.
  induction polls as [| [e now] polls IH]; intros k st d t st' H.
  - discriminate.
  - simpl in H.
    destruct (Rgt_dec (Rabs (targetEncdL (e st) - get_position (BL (e st))))
                      (DISTANCE_LEEWAY c)) as [HL | HL];
      [ destruct (Rgt_dec
                    (Rabs (targetEncdR (e st) - get_position (BR (e st))))
                    (DISTANCE_LEEWAY c)) as [HR | HR];
        [ destruct (Rlt_dec (now - start) cutoff) as [HT | HT] | ] | ].
    + destruct (IH _ _ _ _ _ H) as (Hk & Hn & Hw & Hf).
      assert (Hd : (d - k = S (d - S k))%nat) by lia.
      rewrite Hd. simpl. repeat split; try assumption; try lia.
      constructor; [| exact Hf].
      unfold keeps_waiting, both_far. simpl. repeat split; assumption.
    + injection H as <- <- <-. rewrite Nat.sub_diag. simpl.
      repeat split; try lia; try constructor.
      unfold keeps_waiting. simpl. intros [_ Hlt]. contradiction.
    + injection H as <- <- <-. rewrite Nat.sub_diag. simpl.
      repeat split; try lia; try constructor.
      unfold keeps_waiting, both_far. simpl. intros [[_ Hf] _]. contradiction.
    + injection H as <- <- <-. rewrite Nat.sub_diag. simpl.
      repeat split; try lia; try constructor.
      unfold keeps_waiting, both_far. simpl. intros [[Hf _] _]. contradiction.
Qed.

Lemma waitBase_loop_waiting (polls : list (Env * R)) :
  forall (k : nat) (st : Robot),
    Forall (keeps_waiting c cutoff start) (seen polls st) ->
    waitBase_loop c cutoff start polls k st = None.
Proof.
  induction polls as [| [e now] polls IH]; intros k st H.
  - reflexivity.
  - simpl in H. inversion_clear H as [| ? ? [[HL HR] HT] Hrest].
    simpl in HL, HR, HT. simpl.
    destruct (Rgt_dec (Rabs (targetEncdL (e st) - get_position (BL (e st))))
                      (DISTANCE_LEEWAY c)) as [_ | Hn]; [| contradiction].
    destruct (Rgt_dec (Rabs (targetEncdR (e st) - get_position (BR (e st))))
                      (DISTANCE_LEEWAY c)) as [_ | Hn]; [| contradiction].
    destruct (Rlt_dec (now - start) cutoff) as [_ | Hn]; [| contradiction].
    apply IH. exact Hrest.
Qed.

Lemma clock_advances_tail (k : nat) (p : Env * R) (polls : list (Env * R)) :
  clock_advances start k (p :: polls) -> clock_advances start (S k) polls.
Proof.
  intros H i e t Hi. replace (S k + i)%nat with (k + S i)%nat by lia.
  apply (H (S i) e t). exact Hi.
Qed.

Lemma waitBase_loop_bounded (polls : list (Env * R)) :
  forall (k : nat) (st : Robot) (n : nat),
    clock_advances start k polls ->
    cutoff <= 20 * INR n ->
    (k <= n)%nat -> (n < k + length polls)%nat ->
    exists (d : nat) (t : R) (st' : Robot),
      waitBase_loop c cutoff start polls k st = Some (d, t, st') /\
      (d <= n)%nat.
Proof.
  induction polls as [| [e now] polls IH]; intros k st n Hclk Hcut Hkn Hlen.
  - simpl in Hlen. lia.
  - simpl.
    destruct (Rgt_dec (Rabs (targetEncdL (e st) - get_position (BL (e st))))
                      (DISTANCE_LEEWAY c)) as [HL | HL];
      [ destruct (Rgt_dec
                    (Rabs (targetEncdR (e st) - get_position (BR (e st))))
                    (DISTANCE_LEEWAY c)) as [HR | HR];
        [ destruct (Rlt_dec (now - start) cutoff) as [HT | HT] | ] | ];
      try (exists k, now, (e st); split; [reflexivity | exact Hkn]).
    assert (Hnow : start + 20 * INR (k + 0) <= now).
    { apply (Hclk 0%nat e now). reflexivity. }
    rewrite Nat.add_0_r in Hnow.
    assert (Hlt : (k < n)%nat).
    { apply INR_lt. lra. }
    apply IH.
    + apply (clock_advances_tail k (e, now)). exact Hclk.
    + exact Hcut.
    + lia.
    + simpl in Hlen. lia.
Qed.

End WaitBaseFacts.

(** X1.  When [waitBase] leaves its loop, it is at the first poll at which
    a side is within [DISTANCE_LEEWAY] of its target or the cutoff has
    elapsed: the polls before it all found both sides out of tolerance with
    time left, and the number of delays made is the number of those
    polls. *)
Theorem waitBase_returns_at_first_chance (c : Constants) (cutoff start : R)
  (polls : list (Env * R)) (st : Robot) (d : nat) (t : R) (st' : Robot) :
  waitBase_loop c cutoff start polls 0 st = Some (d, t, st') ->
  nth_error (seen polls st) d = Some (t, st') /\
  (Rabs (targetEncdL st' - get_position (BL st')) <= DISTANCE_LEEWAY c \/
   Rabs (targetEncdR st' - get_position (BR st')) <= DISTANCE_LEEWAY c \/
   cutoff <= t - start) /\
  Forall (keeps_waiting c cutoff start) (firstn d (seen polls st)).
Proof.
  intros H.
  destruct (waitBase_loop_first c cutoff start polls 0 st d t st' H)
    as (_ & Hn & _ & Hf).
  rewrite Nat.sub_0_r in Hn, Hf.
  split; [exact Hn |]. split; [| exact Hf].
  exact (waitBase_loop_exit c cutoff start polls 0 st d t st' H).
Qed.

(** Settle a test on concrete numbers. *)
Ltac settle_test :=
  match goal with
  | |- context [if ?d then _ else _] =>
      lazymatch d with
      | context [if _ then _ else _] => fail
      | _ =>
          let Ht := fresh "Ht" in
          destruct d as [Ht | Ht];
          [ try (exfalso; revert Ht; case_Rabs; lra)
          | try (exfalso; apply Ht; case_Rabs; lra) ]
      end
  end.

Lemma waitBase_returns_at_first_chance_witness :
  let st := set_targetEncd 100 100 power_on in
  let polls := [(quiet, 0); (encoders_reach 100 0, 20)] in
  nth_error (seen polls st) 1 = Some (20, encoders_reach 100 0 st) /\
  Forall (keeps_waiting bench 1000 0) (firstn 1 (seen polls st)).
Proof.
  intros st polls.
  assert (H : waitBase_loop bench 1000 0 polls 0 st
              = Some (1%nat, 20, encoders_reach 100 0 st)).
  { unfold polls, st, waitBase_loop, quiet. simpl.
    repeat settle_test. reflexivity. }
  destruct (waitBase_returns_at_first_chance bench 1000 0 polls st 1 20
              (encoders_reach 100 0 st) H) as (Hn & _ & Hf).
  split; [exact Hn | exact Hf].
Defined.

(** X2.  The cutoff bounds the wait.  When every [delay(20)] lasts at
    least 20 ms, [waitBase(cutoff)] returns after at most [n] delays for any
    [n] with [cutoff <= 20 * n], wherever the encoders are, and it returns
    with the motors stopped. *)
Theorem waitBase_returns_by_cutoff (c : Constants) (cutoff start : R)
  (polls : list (Env * R)) (st : Robot) (n : nat) :
  clock_advances start 0 polls ->
  cutoff <= 20 * INR n ->
  (n < length polls)%nat ->
  exists (d : nat) (t : R) (st' : Robot),
    waitBase_loop c cutoff start polls 0 st = Some (d, t, st') /\
    (d <= n)%nat /\
    waitBase c cutoff start polls st = Some (stop_motors st').
Proof.
  intros Hclk Hcut Hlen.
  destruct (waitBase_loop_bounded c cutoff start polls 0 st n Hclk Hcut)
    as (d & t & st' & Hloop & Hd); [lia | simpl; lia |].
  exists d, t, st'. split; [exact Hloop |]. split; [exact Hd |].
  unfold waitBase. rewrite Hloop. reflexivity.
Qed.

Lemma waitBase_returns_by_cutoff_witness :
  exists (d : nat) (t : R) (st' : Robot),
    waitBase_loop bench 20 0 [(quiet, 0); (quiet, 20)] 0
                  (set_targetEncd 100 100 power_on) = Some (d, t, st') /\
    (d <= 1)%nat /\
    waitBase bench 20 0 [(quiet, 0); (quiet, 20)]
             (set_targetEncd 100 100 power_on) = Some (stop_motors st').
Proof.
  apply (waitBase_returns_by_cutoff bench 20 0 [(quiet, 0); (quiet, 20)]
           (set_targetEncd 100 100 power_on) 1).
  - intros i e t Hi. destruct i as [| [| i]]; simpl in Hi.
    + injection Hi as _ <-. simpl. lra.
    + injection Hi as _ <-. simpl. lra.
    + destruct i; discriminate.
  - simpl. lra.
  - simpl. lia.
Defined.

(** X3.  [waitBase] does not return early: over polls that all find both
    sides out of tolerance with the cutoff not elapsed, it is still
    waiting after the last one. *)
Theorem waitBase_waits_while_far (c : Constants) (cutoff start : R)
  (polls : list (Env * R)) (st : Robot) :
  Forall (keeps_waiting c cutoff start) (seen polls st) ->
  waitBase_loop c cutoff start polls 0 st = None /\
  waitBase c cutoff start polls st = None.
Proof.
  intros H.
  assert (Hloop : waitBase_loop c cutoff start polls 0 st = None)
    by (apply waitBase_loop_waiting; exact H).
  split; [exact Hloop |]. unfold waitBase. rewrite Hloop. reflexivity.
Qed.

Lemma waitBase_waits_while_far_witness :
  waitBase bench 1000 0 [(quiet, 0); (quiet, 20)]
           (set_targetEncd 100 100 power_on) = None.
Proof.
  apply (waitBase_waits_while_far bench 1000 0 [(quiet, 0); (quiet, 20)]
           (set_targetEncd 100 100 power_on)).
  unfold quiet. simpl.
  repeat constructor; simpl; case_Rabs; lra.
Defined.

(** X4.  With a cutoff of zero or less [waitBase] never delays: the first
    evaluation of its loop condition leaves the loop and the motors are
    stopped, however far the encoders are from their targets. *)
Theorem waitBase_without_cutoff (c : Constants) (cutoff start : R)
  (e : Env) (t : R) (polls : list (Env * R)) (st : Robot) :
  cutoff <= 0 -> start <= t ->
  waitBase_loop c cutoff start ((e, t) :: polls) 0 st
  = Some (0%nat, t, e st) /\
  waitBase c cutoff start ((e, t) :: polls) st = Some (stop_motors (e st)).
Proof.
  intros Hc Ht.
  assert (Hloop : waitBase_loop c cutoff start ((e, t) :: polls) 0 st
                  = Some (0%nat, t, e st)).
  { simpl. repeat case_if; solve [reflexivity | lra]. }
  split; [exact Hloop |]. unfold waitBase. rewrite Hloop. reflexivity.
Qed.

Lemma waitBase_without_cutoff_witness :
  waitBase bench 0 0 [(quiet, 0)] (set_targetEncd 100 100 power_on)
  = Some (stop_motors (set_targetEncd 100 100 power_on)).
Proof.
  apply (waitBase_without_cutoff bench 0 0 quiet 0 []
           (set_targetEncd 100 100 power_on)); lra.
Defined.

(** X5.  [waitBase] returns with 0 as the last power told to each of the
    four motors, but leaves [basePaused] as it found it at the end of the
    wait: when the base is not paused, the next tick of [baseMotorControl]
    tells the motors its own powers again, ramped on from the powers it
    held and not from 0. *)
Theorem waitBase_stop_is_overwritten (c : Constants) (cutoff start : R)
  (polls : list (Env * R)) (st st' : Robot) (loc : Power) :
  waitBase c cutoff start polls st = Some st' ->
  last_commanded st' = (0, 0, 0, 0) /\
  (basePaused st' = false ->
   let p := fst (baseMotorControl_tick c loc st') in
   powerL p = shaped (RAMPING_POW c) (power_limit c st')
                     (targetPowerL st') (powerL loc) /\
   powerR p = shaped (RAMPING_POW c) (power_limit c st')
                     (targetPowerR st') (powerR loc) /\
   last_commanded (snd (baseMotorControl_tick c loc st'))
   = (powerL p, powerL p, powerR p, powerR p)).
Proof.
  intros H. unfold waitBase in H.
  destruct (waitBase_loop c cutoff start polls 0 st) as [[[d t] s] |];
    [| discriminate].
  injection H as <-.
  split; [reflexivity |].
  intros Hp p. unfold p. rewrite tick_power. simpl powerL. simpl powerR.
  split; [reflexivity |]. split; [reflexivity |].
  rewrite (tick_running c loc (stop_motors s) Hp), tick_power. reflexivity.
Qed.

Lemma waitBase_stop_is_overwritten_witness :
  last_commanded (stop_motors (set_targetPower 100 100 power_on))
  = (0, 0, 0, 0) /\
  last_commanded
    (snd (baseMotorControl_tick bench (mkPower 90 90)
            (stop_motors (set_targetPower 100 100 power_on))))
  = (100, 100, 100, 100).
Proof.
  assert (H : waitBase bench 1000 0 [(quiet, 0)]
                (set_targetPower 100 100 power_on)
              = Some (stop_motors (set_targetPower 100 100 power_on))).
  { unfold waitBase, waitBase_loop, quiet. simpl.
    repeat settle_test. reflexivity. }
  destruct (waitBase_stop_is_overwritten bench 1000 0 [(quiet, 0)]
              (set_targetPower 100 100 power_on) _ (mkPower 90 90) H)
    as [Hstop Hnext].
  split; [exact Hstop |].
  destruct (Hnext eq_refl) as (HL & HR & Hw).
  rewrite Hw, HL, HR.
  assert (Hs : shaped 15 127 100 90 = 100).
  { unfold shaped, abscap. repeat settle_test. lra. }
  change (shaped (RAMPING_POW bench)
            (power_limit bench
               (stop_motors (set_targetPower 100 100 power_on)))
            (targetPowerL (stop_motors (set_targetPower 100 100 power_on)))
            (powerL (mkPower 90 90)))
    with (shaped 15 127 100 90).
  change (shaped (RAMPING_POW bench)
            (power_limit bench
               (stop_motors (set_targetPower 100 100 power_on)))
            (targetPowerR (stop_motors (set_targetPower 100 100 power_on)))
            (powerR (mkPower 90 90)))
    with (shaped 15 127 100 90).
  rewrite Hs. reflexivity.
Defined.

(** ** The timed override *)

Section TimerBaseFacts.

Variables time start : R.

Lemma timerBase_loop_paused (polls : list (Env * R)) :
  Forall (fun p => respects_pause (fst p)) polls ->
  forall (k : nat) (st : Robot) (d : nat) (t : R) (st' : Robot),
    basePaused st = true ->
    timerBase_loop time start polls k st = Some (d, t, st') ->
    basePaused st' = true /\
    moves (FL st') = moves (FL st) /\ moves (BL st') = moves (BL st) /\
    moves (FR st') = moves (FR st) /\ moves (BR st') = moves (BR st).
Proof.
  induction polls as [| [e now] polls IH]; intros Hall k st d t st' Hp H.
  - discriminate.
  - inversion_clear Hall as [| ? ? He Hrest]. simpl in He.
    destruct (He st Hp) as (Hp1 & H1 & H2 & H3 & H4).
    simpl in H. destruct (Rlt_dec (now - start) time) as [HT | HT].
    + destruct (IH Hrest _ _ _ _ _ Hp1 H) as (Hp2 & G1 & G2 & G3 & G4).
      repeat split; congruence.
    + injection H as _ _ <-. repeat split; assumption.
Qed.

Lemma timerBase_loop_bounded (polls : list (Env * R)) :
  forall (k : nat) (st : Robot) (n : nat),
    clock_advances start k polls ->
    time <= 20 * INR n ->
    (k <= n)%nat -> (n < k + length polls)%nat ->
    exists (d : nat) (t : R) (st' : Robot),
      timerBase_loop time start polls k st = Some (d, t, st') /\
      (d <= n)%nat /\ time <= t - start.
Proof.
  induction polls as [| [e now] polls IH]; intros k st n Hclk Hcut Hkn Hlen.
  - simpl in Hlen. lia.
  - simpl. destruct (Rlt_dec (now - start) time) as [HT | HT].
    + assert (Hnow : start + 20 * INR (k + 0) <= now).
      { apply (Hclk 0%nat e now). reflexivity. }
      rewrite Nat.add_0_r in Hnow.
      assert (Hlt : (k < n)%nat).
      { apply INR_lt. lra. }
      apply IH.
      * apply (clock_advances_tail start k (e, now)). exact Hclk.
      * exact Hcut.
      * lia.
      * simpl in Hlen. lia.
    + exists k, now, (e st). split; [reflexivity |]. split; [exact Hkn | lra].
Qed.

End TimerBaseFacts.

(** While the base is paused neither task tells the motors anything, nor
    clears the flag. *)
Lemma tasks_respect_pause (c : Constants) :
  (forall loc : Power,
      respects_pause (fun st => snd (baseMotorControl_tick c loc st))) /\
  (forall loc : PrevError,
      respects_pause (fun st => snd (baseControl_tick loc st))).
Proof.
  split.
  - intros loc st Hp. rewrite (tick_paused c loc st Hp).
    repeat split; solve [exact Hp | reflexivity].
  - intros loc st Hp. unfold baseControl_tick. simpl.
    repeat split; solve [exact Hp | reflexivity].
Qed.

(** X6.  [timerBase(powL, powR, time)] tells the two left motors [powL]
    and the two right motors [powR], and on return 0 to all four, with
    nothing in between: the ticks of [baseControl] and [baseMotorControl]
    that run during the wait write to no motor, the base being paused.  It
    returns with [basePaused] cleared, also when the base was paused before
    the call. *)
Theorem timerBase_holds_raw_power (c : Constants) (powL powR time start : R)
  (polls : list (Env * R)) (st st' : Robot) :
  Forall (fun p => respects_pause (fst p)) polls ->
  timerBase powL powR time start polls st = Some st' ->
  basePaused st' = false /\
  commanded st'
  = (0 :: powL :: moves (FL st), 0 :: powL :: moves (BL st),
     0 :: powR :: moves (FR st), 0 :: powR :: moves (BR st)) /\
  (forall loc : Power,
      respects_pause (fun s => snd (baseMotorControl_tick c loc s))) /\
  (forall loc : PrevError,
      respects_pause (fun s => snd (baseControl_tick loc s))).
Proof.
  intros Hall H. unfold timerBase in H.
  set (st0 :=
         set_motors
           (FL (set_motors (FL (set_motors (FL (set_motors
              (move powL (FL (pauseBase true st))) (BL (pauseBase true st))
              (FR (pauseBase true st)) (BR (pauseBase true st))
              (pauseBase true st))) _ _ _ _)) _ _ _ _)) _ _ _ _) in H.
  destruct (timerBase_loop time start polls 0 st0) as [[[d t] s] |] eqn:Hloop;
    [| discriminate].
  injection H as <-.
  destruct (timerBase_loop_paused time start polls Hall 0 st0 d t s
              eq_refl Hloop) as (_ & H1 & H2 & H3 & H4).
  split; [reflexivity |]. split.
  - unfold commanded. simpl. rewrite H1, H2, H3, H4. reflexivity.
  - apply tasks_respect_pause.
Qed.

Lemma timerBase_holds_raw_power_witness :
  exists st' : Robot,
    timerBase 60 (-60) 500 0
      [ ((fun s => snd (baseMotorControl_tick bench (mkPower 0 0) s)), 0);
        (quiet, 500) ]
      (set_targetPower 100 100 power_on) = Some st' /\
    basePaused st' = false /\
    commanded st' = ([0; 60], [0; 60], [0; -60], [0; -60]).
Proof.
  set (polls :=
         [ ((fun s => snd (baseMotorControl_tick bench (mkPower 0 0) s)), 0);
           (quiet, 500) ]).
  assert (Hall : Forall (fun p => respects_pause (fst p)) polls).
  { constructor; [| constructor; [| constructor]].
    - apply (tasks_respect_pause bench).
    - intros st Hp. repeat split; solve [exact Hp | reflexivity]. }
  assert (Hsome : exists st' : Robot,
             timerBase 60 (-60) 500 0 polls
                       (set_targetPower 100 100 power_on) = Some st').
  { unfold timerBase, polls, timerBase_loop, quiet. simpl.
    repeat settle_test. eexists. reflexivity. }
  destruct Hsome as [st' H]. exists st'. split; [exact H |].
  destruct (timerBase_holds_raw_power bench 60 (-60) 500 0 polls _ st'
              Hall H) as (Hp & Hc & _).
  split; [exact Hp | exact Hc].
Defined.

(** X7.  [timerBase] holds the raw powers for the time asked and no more
    than one delay longer: when every [delay(20)] lasts at least 20 ms, its
    loop ends after at most [n] delays for any [n] with [time <= 20 * n],
    at a clock reading at least [time] after the start, and [timerBase]
    returns. *)
Theorem timerBase_lasts_the_time (powL powR time start : R)
  (polls : list (Env * R)) (st : Robot) (n : nat) :
  clock_advances start 0 polls ->
  time <= 20 * INR n ->
  (n < length polls)%nat ->
  exists (d : nat) (t : R) (s : Robot),
    timerBase_loop time start polls 0 (timerBase_armed powL powR st)
    = Some (d, t, s) /\
    (d <= n)%nat /\ time <= t - start /\
    timerBase powL powR time start polls st
    = Some (pauseBase false (stop_motors s)).
Proof.
  intros Hclk Htime Hlen.
  destruct (timerBase_loop_bounded time start polls 0
              (timerBase_armed powL powR st) n Hclk Htime)
    as (d & t & s & Hloop & Hd & Ht); [lia | simpl; lia |].
  exists d, t, s. split; [exact Hloop |]. split; [exact Hd |].
  split; [exact Ht |].
  unfold timerBase. fold (timerBase_armed powL powR st).
  rewrite Hloop. reflexivity.
Qed.

Lemma timerBase_lasts_the_time_witness :
  exists (d : nat) (t : R) (s : Robot),
    timerBase_loop 30 0 [(quiet, 0); (quiet, 20); (quiet, 40)] 0
                   (timerBase_armed 60 60 power_on) = Some (d, t, s) /\
    (d <= 2)%nat /\ 30 <= t - 0 /\
    timerBase 60 60 30 0 [(quiet, 0); (quiet, 20); (quiet, 40)] power_on
    = Some (pauseBase false (stop_motors s)).
Proof.
  apply (timerBase_lasts_the_time 60 60 30 0
           [(quiet, 0); (quiet, 20); (quiet, 40)] power_on 2).
  - intros i e t Hi. destruct i as [| [| [| i]]]; simpl in Hi.
    + injection Hi as _ <-. simpl. lra.
    + injection Hi as _ <-. simpl. lra.
    + injection Hi as _ <-. simpl. lra.
    + destruct i; discriminate.
  - simpl. lra.
  - simpl. lia.
Defined.

(** ** Movement functions, continued *)

Lemma toRad_nonzero : toRad <> 0.
Proof. pose proof PI_pos. unfold toRad. lra. Qed.

(** X8.  The two straight moves change both targets by the same amount,
    so they keep [targetEncdL - targetEncdR]; the three turns change them
    by opposite amounts, so they keep [targetEncdL + targetEncdR]. *)
Theorem moves_keep_difference_turns_keep_sum (c : Constants) (st : Robot) :
  (forall dis kp kd,
      targetEncdL (baseMove c dis kp kd st)
      - targetEncdR (baseMove c dis kp kd st)
      = targetEncdL st - targetEncdR st) /\
  (forall x y kp kd,
      targetEncdL (baseMove_xy c x y kp kd st)
      - targetEncdR (baseMove_xy c x y kp kd st)
      = targetEncdL st - targetEncdR st) /\
  (forall angleDeg kp kd,
      targetEncdL (baseTurn c angleDeg kp kd st)
      + targetEncdR (baseTurn c angleDeg kp kd st)
      = targetEncdL st + targetEncdR st) /\
  (forall x y kp kd reverse,
      targetEncdL (baseTurn_xy c x y kp kd reverse st)
      + targetEncdR (baseTurn_xy c x y kp kd reverse st)
      = targetEncdL st + targetEncdR st) /\
  (forall a kp kd,
      targetEncdL (baseTurnRelative c a kp kd st)
      + targetEncdR (baseTurnRelative c a kp kd st)
      = targetEncdL st + targetEncdR st).
Proof.
  repeat split; intros.
  - unfold baseMove. simpl. lra.
  - unfold baseMove_xy. simpl. lra.
  - unfold baseTurn. simpl. lra.
  - unfold baseTurn_xy. simpl. lra.
  - unfold baseTurnRelative. simpl. lra.
Qed.

(** X9.  Relative turns compose by addition of their angles, and a
    command followed by its opposite brings both targets back to where they
    were: a move of [dis] then of [- dis], a relative turn of [a] then of
    [- a].  The gains are not brought back: they are those of the last
    command. *)
Theorem opposite_commands_cancel (c : Constants) (st : Robot) :
  (forall a b kp kd,
      baseTurnRelative c b kp kd (baseTurnRelative c a kp kd st)
      = baseTurnRelative c (a + b) kp kd st) /\
  (forall dis kp kd kp' kd',
      let st' := baseMove c (- dis) kp' kd' (baseMove c dis kp kd st) in
      targetEncdL st' = targetEncdL st /\ targetEncdR st' = targetEncdR st /\
      kP st' = kp' /\ kD st' = kd') /\
  (forall a kp kd kp' kd',
      let st' :=
        baseTurnRelative c (- a) kp' kd' (baseTurnRelative c a kp kd st) in
      targetEncdL st' = targetEncdL st /\ targetEncdR st' = targetEncdR st /\
      kP st' = kp' /\ kD st' = kd').
Proof.
  split; [| split].
  - intros a b kp kd.
    unfold baseTurnRelative, set_gains, set_targetEncd. simpl.
    f_equal; unfold Rdiv; ring.
  - intros dis kp kd kp' kd' st'. unfold st', baseMove. simpl.
    repeat split; unfold Rdiv; ring.
  - intros a kp kd kp' kd' st'. unfold st', baseTurnRelative. simpl.
    repeat split; unfold Rdiv; ring.
Qed.

(** X10.  The three turns are one formula: a turn to the absolute bearing
    [angleDeg] is the relative turn by [angleDeg] minus the heading in
    degrees, and a turn towards a point is the relative turn by the wrapped
    difference in degrees.  A turn to the bearing the robot already has
    leaves both targets as they are. *)
Theorem turns_are_relative_turns (c : Constants) (st : Robot) (kp kd : R) :
  (forall angleDeg,
      baseTurn c angleDeg kp kd st
      = baseTurnRelative c (angleDeg - angle (position st) / toRad) kp kd st) /\
  (forall x y reverse,
      baseTurn_xy c x y kp kd reverse st
      = baseTurnRelative c
          ((baseTurn_targAngle x y reverse st - angle (position st)) / toRad)
          kp kd st) /\
  (forall angleDeg,
      angleDeg * toRad = angle (position st) ->
      targetEncdL (baseTurn c angleDeg kp kd st) = targetEncdL st /\
      targetEncdR (baseTurn c angleDeg kp kd st) = targetEncdR st).
Proof.
  pose proof toRad_nonzero as Hz.
  assert (Hdeg : forall a h : R, (a - h / toRad) * toRad = a * toRad - h).
  { intros a h. field. exact Hz. }
  assert (Hrad : forall d : R, d / toRad * toRad = d).
  { intros d. field. exact Hz. }
  split; [| split].
  - intros angleDeg. unfold baseTurn, baseTurnRelative.
    rewrite Hdeg. reflexivity.
  - intros x y reverse. unfold baseTurn_xy, baseTurnRelative.
    rewrite Hrad. reflexivity.
  - intros angleDeg Heq. unfold baseTurn. simpl. rewrite Heq.
    split; unfold Rdiv; ring.
Qed.

Lemma atan2_origin : atan2 0 0 = 0.
Proof. unfold atan2. repeat case_if; lra. Qed.

(** X11.  A target that is the robot's own position: [baseMove(x, y)]
    leaves both targets as they are, whatever the heading; [baseTurn(x, y)]
    takes the bearing of such a point to be 0, so with the heading within
    -180 and 180 degrees it is the turn to the absolute bearing 0. *)
Theorem commands_towards_own_position (c : Constants) (st : Robot)
  (kp kd : R) :
  let x := pos_x (position st) in
  let y := pos_y (position st) in
  targetEncdL (baseMove_xy c x y kp kd st) = targetEncdL st /\
  targetEncdR (baseMove_xy c x y kp kd st) = targetEncdR st /\
  (- PI <= angle (position st) <= PI ->
   baseTurn_xy c x y kp kd false st = baseTurn c 0 kp kd st).
Proof.
  intros x y. unfold x, y.
  assert (Hd : sqrt ((pos_x (position st) - pos_x (position st))
                     * (pos_x (position st) - pos_x (position st))
                     + (pos_y (position st) - pos_y (position st))
                       * (pos_y (position st) - pos_y (position st))) = 0).
  { replace ((pos_x (position st) - pos_x (position st))
             * (pos_x (position st) - pos_x (position st))
             + (pos_y (position st) - pos_y (position st))
               * (pos_y (position st) - pos_y (position st)))
      with 0 by ring.
    exact sqrt_0. }
  split; [| split].
  - unfold baseMove_xy. simpl. rewrite Hd. unfold Rdiv. ring.
  - unfold baseMove_xy. simpl. rewrite Hd. unfold Rdiv. ring.
  - intros Hh.
    pose proof PI_pos as Hpi.
    assert (Hdelta : baseTurn_targAngle (pos_x (position st))
                       (pos_y (position st)) false st - angle (position st)
                     = 0 * toRad - angle (position st)).
    { unfold baseTurn_targAngle.
      replace (pos_x (position st) - pos_x (position st)) with 0 by ring.
      replace (pos_y (position st) - pos_y (position st)) with 0 by ring.
      rewrite atan2_origin. unfold twoPI. repeat case_if; lra. }
    unfold baseTurn_xy, baseTurn. rewrite Hdelta. reflexivity.
Qed.

Lemma commands_towards_own_position_witness :
  baseTurn_xy bench 3 4 1 0 false (at_pose 3 4 (90 * toRad))
  = baseTurn bench 0 1 0 (at_pose 3 4 (90 * toRad)).
Proof.
  destruct (commands_towards_own_position bench (at_pose 3 4 (90 * toRad))
              1 0) as (_ & _ & H).
  apply H. pose proof PI_pos. simpl. unfold toRad. lra.
Defined.

Lemma baseMove_xy_targets (c : Constants) (x y kp kd : R) (st : Robot) :
  let errorX := x - pos_x (position st) in
  let errorY := y - pos_y (position st) in
  let signed :=
    sqrt (errorX * errorX + errorY * errorY) / inPerDeg c
    * (if Rge_dec (Rabs (atan2 errorX errorY - angle (position st))) halfPI
       then -1 else 1) in
  targetEncdL (baseMove_xy c x y kp kd st) = targetEncdL st + signed /\
  targetEncdR (baseMove_xy c x y kp kd st) = targetEncdR st + signed.
Proof. split; reflexivity. Qed.

(** X12.  [baseMove(x, y)] issued once the robot stands where it was with
    the heading [baseTurn(x, y, reverse)] aimed at (its local [targAngle]
    after the two wrap tests).  After a turn with [reverse] set the move
    drives backward by the distance.  After a turn without [reverse] it
    drives forward when the turn did not wrap; when the turn wrapped, the
    heading aimed at differs from the bearing by 360 degrees, the test of
    [baseMove(x, y)] compares the two as they are, and the move drives
    backward. *)
Theorem baseMove_xy_after_baseTurn_xy (c : Constants) (st : Robot)
  (x y kp kd : R) (reverse : bool) :
  let px := pos_x (position st) in
  let py := pos_y (position st) in
  let bearing := atan2 (x - px) (y - py) in
  let faced :=
    set_position (mkPosition px py (baseTurn_targAngle x y reverse st)) st in
  let d := sqrt ((x - px) * (x - px) + (y - py) * (y - py)) / inPerDeg c in
  (reverse = true ->
     targetEncdL (baseMove_xy c x y kp kd faced) = targetEncdL st + - d /\
     targetEncdR (baseMove_xy c x y kp kd faced) = targetEncdR st + - d) /\
  (reverse = false -> - PI <= bearing - angle (position st) <= PI ->
     targetEncdL (baseMove_xy c x y kp kd faced) = targetEncdL st + d /\
     targetEncdR (baseMove_xy c x y kp kd faced) = targetEncdR st + d) /\
  (reverse = false ->
   bearing - angle (position st) > PI \/ bearing - angle (position st) < - PI ->
     targetEncdL (baseMove_xy c x y kp kd faced) = targetEncdL st + - d /\
     targetEncdR (baseMove_xy c x y kp kd faced) = targetEncdR st + - d).
Proof.
  intros px py bearing faced d.
  pose proof PI_pos as Hpi.
  destruct (baseTurn_targAngle_cases x y reverse st) as (Hup & Hdown & Hin).
  fold px py in Hup, Hdown, Hin. fold bearing in Hup, Hdown, Hin.
  set (h' := baseTurn_targAngle x y reverse st) in *.
  destruct (baseMove_xy_targets c x y kp kd faced) as [HL HR].
  change (position faced) with (mkPosition px py h') in HL, HR.
  change (targetEncdL faced) with (targetEncdL st) in HL.
  change (targetEncdR faced) with (targetEncdR st) in HR.
  cbn [pos_x pos_y angle] in HL, HR.
  fold bearing in HL, HR. fold d in HL, HR.
  rewrite HL, HR. clear HL HR.
  assert (Hback : Rabs (bearing - h') >= halfPI ->
            targetEncdL st
            + d * (if Rge_dec (Rabs (bearing - h')) halfPI then -1 else 1)
            = targetEncdL st + - d /\
            targetEncdR st
            + d * (if Rge_dec (Rabs (bearing - h')) halfPI then -1 else 1)
            = targetEncdR st + - d).
  { intros Hge. destruct (Rge_dec (Rabs (bearing - h')) halfPI);
      [split; lra | contradiction]. }
  assert (Hfwd : Rabs (bearing - h') < halfPI ->
            targetEncdL st
            + d * (if Rge_dec (Rabs (bearing - h')) halfPI then -1 else 1)
            = targetEncdL st + d /\
            targetEncdR st
            + d * (if Rge_dec (Rabs (bearing - h')) halfPI then -1 else 1)
            = targetEncdR st + d).
  { intros Hlt. destruct (Rge_dec (Rabs (bearing - h')) halfPI);
      [lra | split; lra]. }
  split; [| split].
  - intros Hrev. subst reverse. apply Hback.
    destruct (Rgt_dec (bearing + PI - angle (position st)) PI) as [H1 | H1].
    + specialize (Hup H1). unfold twoPI, halfPI in *. case_Rabs; lra.
    + destruct (Rlt_dec (bearing + PI - angle (position st)) (- PI))
        as [H2 | H2].
      * specialize (Hdown H2). unfold twoPI, halfPI in *. case_Rabs; lra.
      * assert (H3 : - PI <= bearing + PI - angle (position st) <= PI)
          by lra.
        specialize (Hin H3). unfold halfPI. case_Rabs; lra.
  - intros Hrev Hraw. subst reverse. apply Hfwd.
    specialize (Hin Hraw). unfold halfPI. case_Rabs; lra.
  - intros Hrev Hraw. subst reverse. apply Hback.
    destruct Hraw as [H1 | H2].
    + specialize (Hup H1). unfold twoPI, halfPI in *. case_Rabs; lra.
    + specialize (Hdown H2). unfold twoPI, halfPI in *. case_Rabs; lra.
Qed.

Lemma baseMove_xy_after_baseTurn_xy_witness :
  let st := at_pose 0 0 (170 * toRad) in
  let x := sin (-170 * toRad) in
  let y := cos (-170 * toRad) in
  let faced :=
    set_position (mkPosition 0 0 (baseTurn_targAngle x y false st)) st in
  targetEncdL (baseMove_xy bench x y 1 0 faced)
  = 0 + - (sqrt ((x - 0) * (x - 0) + (y - 0) * (y - 0)) / (1 / 40)).
Proof.
  intros st x y faced.
  pose proof PI_pos as Hpi.
  assert (Hbear : atan2 (x - pos_x (position st)) (y - pos_y (position st))
                  = -170 * toRad).
  { simpl. unfold x, y.
    replace (sin (-170 * toRad) - 0) with (1 * sin (-170 * toRad)) by lra.
    replace (cos (-170 * toRad) - 0) with (1 * cos (-170 * toRad)) by lra.
    apply atan2_polar; [lra |]. unfold toRad. lra. }
  destruct (baseMove_xy_after_baseTurn_xy bench st x y 1 0 false)
    as (_ & _ & Hwrap).
  destruct (Hwrap eq_refl) as [HL _].
  - right. rewrite Hbear. simpl. unfold toRad. lra.
  - exact HL.
Defined.

(** ** The PD task, continued *)

(** X13.  [baseControl] remembers one tick and no more: after any run of
    two ticks or more, the target power of a side is [kP] times the error
    found by the last tick plus [kD] times the change of the error since
    the tick before, whatever happened earlier in the run.  When that error
    did not change the power is [kP] times the error alone. *)
Theorem baseControl_remembers_one_tick (env : list Env) (e1 e2 : Env)
  (st : Robot) :
  let before := baseControl env st in
  let s1 := e1 (snd before) in
  let s2 := e2 (snd (baseControl_tick (fst before) s1)) in
  let errorL := fun s => targetEncdL s - get_position (BL s) in
  let errorR := fun s => targetEncdR s - get_position (BR s) in
  let after := snd (baseControl (env ++ [e1; e2]) st) in
  targetPowerL after
  = kP s2 * errorL s2 + kD s2 * (errorL s2 - errorL s1) /\
  targetPowerR after
  = kP s2 * errorR s2 + kD s2 * (errorR s2 - errorR s1) /\
  (errorL s2 = errorL s1 -> targetPowerL after = kP s2 * errorL s2) /\
  (errorR s2 = errorR s1 -> targetPowerR after = kP s2 * errorR s2).
Proof.
  intros before s1 s2 errorL errorR after.
  assert (Hafter : after
                   = snd (baseControl_tick
                            (fst (baseControl_tick (fst before) s1)) s2)).
  { unfold after, baseControl.
    replace (env ++ [e1; e2]) with ((env ++ [e1]) ++ [e2])
      by (rewrite <- app_assoc; reflexivity).
    rewrite !task_loop_last. reflexivity. }
  assert (HL : targetPowerL after
               = kP s2 * errorL s2 + kD s2 * (errorL s2 - errorL s1))
    by (rewrite Hafter; reflexivity).
  assert (HR : targetPowerR after
               = kP s2 * errorR s2 + kD s2 * (errorR s2 - errorR s1))
    by (rewrite Hafter; reflexivity).
  split; [exact HL |]. split; [exact HR |]. split.
  - intros Heq. rewrite HL, Heq. ring.
  - intros Heq. rewrite HR, Heq. ring.
Qed.

(** X14.  [resetCoords] zeroes targets and encoders but cannot reach the
    previous errors kept inside [baseControl]: the tick that follows a
    reset finds the error 0 and writes the target power
    [- kD * previous error] on each side; the tick after it, if nothing has
    moved, writes 0. *)
Theorem baseControl_after_resetCoords (loc : PrevError) (st : Robot)
  (x y angleDeg : R) :
  let first := baseControl_tick loc (resetCoords x y angleDeg st) in
  let second := baseControl_tick (fst first) (snd first) in
  targetPowerL (snd first) = - (kD st * prevErrorEncdL loc) /\
  targetPowerR (snd first) = - (kD st * prevErrorEncdR loc) /\
  fst first = mkPrevError 0 0 /\
  targetPowerL (snd second) = 0 /\
  targetPowerR (snd second) = 0.
Proof.
  intros first second.
  unfold second, first, baseControl_tick, resetCoords, run_steps. simpl.
  repeat split; try ring.
  f_equal; ring.
Qed.

(** X15.  The first tick of [baseControl] after a command, for a robot
    that stood on its targets: after a relative turn the two target powers
    are opposite, after a straight move they are equal, and in both cases
    they are [kp + kd] times the delta of the command, with the gains the
    command brought. *)
Theorem baseControl_first_tick_after_command (c : Constants) (st : Robot)
  (v kp kd : R) :
  targetEncdL st = get_position (BL st) ->
  targetEncdR st = get_position (BR st) ->
  let turned :=
    snd (baseControl_tick baseControl_init (baseTurnRelative c v kp kd st)) in
  let moved :=
    snd (baseControl_tick baseControl_init (baseMove c v kp kd st)) in
  targetPowerL turned
  = (kp + kd) * (v * toRad * baseWidth c / inPerDeg c / 2) /\
  targetPowerR turned = - targetPowerL turned /\
  targetPowerL moved = (kp + kd) * (v / inPerDeg c) /\
  targetPowerR moved = targetPowerL moved.
Proof.
  intros HL HR turned moved.
  unfold turned, moved, baseControl_tick, baseControl_init,
    baseTurnRelative, baseMove.
  simpl. rewrite HL, HR. unfold Rdiv. repeat split; ring.
Qed.

Lemma baseControl_first_tick_after_command_witness :
  let turned :=
    snd (baseControl_tick baseControl_init
           (baseTurnRelative bench 90 1 0 power_on)) in
  targetPowerR turned = - targetPowerL turned.
Proof.
  intros turned.
  destruct (baseControl_first_tick_after_command bench power_on 90 1 0
              eq_refl eq_refl) as (_ & H & _).
  exact H.
Defined.

(** ** The power task, continued *)

(** The distance to the clamped target shrinks by the ramp, down to 0. *)
Lemma shaped_distance (ramp lim target p : R) :
  0 <= ramp -> 0 <= lim -> Rabs p <= lim ->
  Rabs (abscap target lim - shaped ramp lim target p)
  = Rmax (Rabs (abscap target lim - p) - ramp) 0.
Proof.
  intros Hr Hl Hp. unfold shaped, abscap, Rmax.
  repeat case_if; case_Rabs; lra.
Qed.

Lemma abscap_odd (v cap : R) : 0 <= cap -> abscap (- v) cap = - abscap v cap.
Proof. intros Hc. unfold abscap. repeat case_if; lra. Qed.

Lemma shaped_odd (ramp lim target p : R) :
  0 <= ramp -> 0 <= lim ->
  shaped ramp lim (- target) (- p) = - shaped ramp lim target p.
Proof.
  intros Hr Hl. unfold shaped.
  replace (- target - - p) with (- (target - p)) by ring.
  rewrite (abscap_odd (target - p) ramp Hr).
  replace (- p + - abscap (target - p) ramp)
    with (- (p + abscap (target - p) ramp)) by ring.
  apply abscap_odd. exact Hl.
Qed.

Lemma approach (ramp lim target : R) (p : nat -> R) :
  0 <= ramp -> 0 <= lim ->
  p 0%nat = 0 ->
  (forall n, p (S n) = shaped ramp lim target (p n)) ->
  forall n,
    Rabs (p n) <= lim /\
    Rabs (abscap target lim - p n)
    = Rmax (Rabs (abscap target lim) - INR n * ramp) 0.
Proof.
  intros Hr Hl H0 HS. induction n as [| n [IHb IHd]].
  - rewrite H0. split.
    + rewrite Rabs_R0. exact Hl.
    + simpl. rewrite Rminus_0_r, Rmult_0_l, Rminus_0_r.
      unfold Rmax. case_if; [| reflexivity].
      pose proof (Rabs_pos (abscap target lim)). lra.
  - rewrite HS. split.
    + apply shaped_range. exact Hl.
    + rewrite shaped_distance, IHd by assumption.
      rewrite S_INR. pose proof (pos_INR n).
      assert (0 <= INR n * ramp) by (apply Rmult_le_pos; assumption).
      replace ((INR n + 1) * ramp) with (INR n * ramp + ramp) by ring.
      unfold Rmax. repeat case_if; lra.
Qed.

Section MotorControlRequests.

Variable c : Constants.

Lemma requests_run_cap (reqs : list (R * R)) (st : Robot) :
  power_limit c (snd (baseMotorControl c (requests reqs) st))
  = power_limit c st.
Proof.
  induction reqs as [| [l r] reqs IH] using rev_ind.
  - reflexivity.
  - unfold requests. rewrite map_app. fold (requests reqs). simpl map.
    rewrite baseMotorControl_last.
    set (r1 := baseMotorControl c (requests reqs) st) in *.
    rewrite (power_limit_ext c _ (set_targetPower l r (snd r1)))
      by apply tick_frame.
    exact IH.
Qed.

Lemma requests_run_last (reqs : list (R * R)) (l r : R) (st : Robot) :
  let prev := fst (baseMotorControl c (requests reqs) st) in
  fst (baseMotorControl c (requests (reqs ++ [(l, r)])) st)
  = mkPower (shaped (RAMPING_POW c) (power_limit c st) l (powerL prev))
            (shaped (RAMPING_POW c) (power_limit c st) r (powerR prev)).
Proof.
  intros prev. unfold requests. rewrite map_app. fold (requests reqs).
  simpl map. rewrite baseMotorControl_last, tick_power.
  set (r1 := baseMotorControl c (requests reqs) st) in *.
  change (power_limit c (set_targetPower l r (snd r1)))
    with (power_limit c (snd r1)).
  unfold r1. rewrite requests_run_cap. reflexivity.
Qed.

End MotorControlRequests.

(** X16.  [baseMotorControl] closes in on its target by [RAMPING_POW] a
    tick and stops there.  On a tick, for a power within the bound in
    force, the distance from the power to the target power clamped to that
    bound shrinks by [RAMPING_POW], down to 0.  With the requests left
    alone the power after [n] ticks is at distance
    [max (|clamped target| - n * RAMPING_POW) 0] from the clamped target: it
    is the clamped target from the tick on at which [n * RAMPING_POW]
    covers it, for targets of either sign. *)
Theorem baseMotorControl_converges (c : Constants) (st : Robot) :
  0 <= RAMPING_POW c -> 0 <= power_limit c st ->
  let goalL := abscap (targetPowerL st) (power_limit c st) in
  let goalR := abscap (targetPowerR st) (power_limit c st) in
  (forall loc : Power,
      Rabs (powerL loc) <= power_limit c st ->
      Rabs (goalL - powerL (fst (baseMotorControl_tick c loc st)))
      = Rmax (Rabs (goalL - powerL loc) - RAMPING_POW c) 0) /\
  (forall loc : Power,
      Rabs (powerR loc) <= power_limit c st ->
      Rabs (goalR - powerR (fst (baseMotorControl_tick c loc st)))
      = Rmax (Rabs (goalR - powerR loc) - RAMPING_POW c) 0) /\
  (forall n : nat,
      let p := fst (baseMotorControl c (repeat quiet n) st) in
      Rabs (goalL - powerL p)
      = Rmax (Rabs goalL - INR n * RAMPING_POW c) 0 /\
      Rabs (goalR - powerR p)
      = Rmax (Rabs goalR - INR n * RAMPING_POW c) 0 /\
      (Rabs goalL <= INR n * RAMPING_POW c -> powerL p = goalL) /\
      (Rabs goalR <= INR n * RAMPING_POW c -> powerR p = goalR)).
Proof.
  intros Hr Hl goalL goalR.
  split; [| split].
  - intros loc Hp. rewrite tick_power. simpl powerL.
    apply shaped_distance; assumption.
  - intros loc Hp. rewrite tick_power. simpl powerR.
    apply shaped_distance; assumption.
  - intros n p.
    destruct (approach (RAMPING_POW c) (power_limit c st) (targetPowerL st)
                (fun k => powerL (fst (baseMotorControl c
                                         (repeat quiet k) st)))
                Hr Hl eq_refl (fun k => quiet_run_powerL c k st) n)
      as [_ HL].
    destruct (approach (RAMPING_POW c) (power_limit c st) (targetPowerR st)
                (fun k => powerR (fst (baseMotorControl c
                                         (repeat quiet k) st)))
                Hr Hl eq_refl (fun k => quiet_run_powerR c k st) n)
      as [_ HR].
    fold goalL in HL. fold goalR in HR. fold p in HL, HR.
    split; [exact HL |]. split; [exact HR |]. split.
    + intros Hn. revert HL. unfold Rmax. repeat case_if; case_Rabs; lra.
    + intros Hn. revert HR. unfold Rmax. repeat case_if; case_Rabs; lra.
Qed.

Lemma baseMotorControl_converges_witness :
  powerL (fst (baseMotorControl bench (repeat quiet 3)
                 (set_targetPower (-40) 200 power_on))) = -40 /\
  powerR (fst (baseMotorControl bench (repeat quiet 9)
                 (set_targetPower (-40) 200 power_on))) = 127.
Proof.
  assert (Hr : 0 <= RAMPING_POW bench) by (simpl; lra).
  assert (Hl : 0 <= power_limit bench (set_targetPower (-40) 200 power_on))
    by (change (0 <= 127); lra).
  destruct (baseMotorControl_converges bench
              (set_targetPower (-40) 200 power_on) Hr Hl) as (_ & _ & Hrun).
  assert (HgL : abscap (-40) 127 = -40)
    by (unfold abscap; repeat settle_test; reflexivity).
  assert (HgR : abscap 200 127 = 127)
    by (unfold abscap; repeat settle_test; reflexivity).
  split.
  - destruct (Hrun 3%nat) as (_ & _ & H & _).
    change (abscap (targetPowerL (set_targetPower (-40) 200 power_on))
              (power_limit bench (set_targetPower (-40) 200 power_on)))
      with (abscap (-40) 127) in H.
    rewrite HgL in H. apply H. simpl. case_Rabs; lra.
  - destruct (Hrun 9%nat) as (_ & _ & _ & H).
    change (abscap (targetPowerR (set_targetPower (-40) 200 power_on))
              (power_limit bench (set_targetPower (-40) 200 power_on)))
      with (abscap 200 127) in H.
    rewrite HgR in H. apply H. simpl. case_Rabs; lra.
Defined.

(** X17.  [baseMotorControl] treats the two directions and the two sides
    alike: over the same sequence of target-power requests with every
    request negated it holds the negated powers, and with the left and
    right requests exchanged it holds the exchanged powers. *)
Theorem baseMotorControl_is_symmetric (c : Constants)
  (reqs : list (R * R)) (st : Robot) :
  0 <= RAMPING_POW c -> 0 <= power_limit c st ->
  let p := fst (baseMotorControl c (requests reqs) st) in
  fst (baseMotorControl c
         (requests (map (fun lr => (- fst lr, - snd lr)) reqs)) st)
  = mkPower (- powerL p) (- powerR p) /\
  fst (baseMotorControl c
         (requests (map (fun lr => (snd lr, fst lr)) reqs)) st)
  = mkPower (powerR p) (powerL p).
Proof.
  intros Hr Hl. induction reqs as [| [l r] reqs [IHn IHs]] using rev_ind.
  - intros p. unfold p, baseMotorControl, baseMotorControl_init. simpl.
    split; [f_equal; ring | reflexivity].
  - intros p. unfold p. rewrite !map_app. simpl map.
    rewrite !requests_run_last. simpl in IHn, IHs. rewrite IHn, IHs.
    simpl powerL. simpl powerR. split.
    + rewrite !shaped_odd by assumption. reflexivity.
    + reflexivity.
Qed.

Lemma baseMotorControl_is_symmetric_witness :
  let up := fst (baseMotorControl bench (requests [(100, 20)]) power_on) in
  fst (baseMotorControl bench (requests [(-100, -20)]) power_on)
  = mkPower (- powerL up) (- powerR up).
Proof.
  intros up.
  assert (Hr : 0 <= RAMPING_POW bench) by (simpl; lra).
  assert (Hl : 0 <= power_limit bench power_on) by (change (0 <= 127); lra).
  destruct (baseMotorControl_is_symmetric bench [(100, 20)] power_on Hr Hl)
    as [Hneg _].
  exact Hneg.
Defined.

(** X18.  Whatever target powers are requested, every power
    [baseMotorControl] tells a motor lies within the bound in force, and
    the two motors of a side are told the same powers: over any sequence of
    requests each motor's record grows by a list of powers within the
    bound, the same list for the front and the back motor of a side. *)
Theorem baseMotorControl_writes_within_limit (c : Constants)
  (reqs : list (R * R)) (st : Robot) :
  0 <= power_limit c st ->
  let st' := snd (baseMotorControl c (requests reqs) st) in
  exists newL newR : list R,
    moves (FL st') = newL ++ moves (FL st) /\
    moves (BL st') = newL ++ moves (BL st) /\
    moves (FR st') = newR ++ moves (FR st) /\
    moves (BR st') = newR ++ moves (BR st) /\
    Forall (fun v => Rabs v <= power_limit c st) newL /\
    Forall (fun v => Rabs v <= power_limit c st) newR.
Proof.
  intros Hl. induction reqs as [| [l r] reqs IH] using rev_ind.
  - exists [], []. simpl. repeat split; constructor.
  - intros st'. unfold st'. unfold requests. rewrite map_app.
    fold (requests reqs). simpl map. rewrite baseMotorControl_last.
    destruct IH as (newL & newR & H1 & H2 & H3 & H4 & HfL & HfR).
    pose proof (requests_run_cap c reqs st) as Hcap.
    set (r1 := baseMotorControl c (requests reqs) st) in *.
    set (s := set_targetPower l r (snd r1)).
    assert (Hlim : power_limit c s = power_limit c st) by exact Hcap.
    destruct (basePaused s) eqn:Hp.
    + rewrite (tick_paused c (fst r1) s Hp).
      exists newL, newR. repeat split; assumption.
    + rewrite (tick_running c (fst r1) s Hp).
      set (p := fst (baseMotorControl_tick c (fst r1) s)).
      assert (Hb : Rabs (powerL p) <= power_limit c st /\
                   Rabs (powerR p) <= power_limit c st).
      { unfold p. rewrite tick_power, Hlim. simpl.
        split; apply shaped_range; exact Hl. }
      destruct Hb as [HbL HbR].
      exists (powerL p :: newL), (powerR p :: newR).
      change (moves (FL (set_motors (move (powerL p) (FL s))
                (move (powerL p) (BL s)) (move (powerR p) (FR s))
                (move (powerR p) (BR s)) s)))
        with (powerL p :: moves (FL (snd r1))).
      change (moves (BL (set_motors (move (powerL p) (FL s))
                (move (powerL p) (BL s)) (move (powerR p) (FR s))
                (move (powerR p) (BR s)) s)))
        with (powerL p :: moves (BL (snd r1))).
      change (moves (FR (set_motors (move (powerL p) (FL s))
                (move (powerL p) (BL s)) (move (powerR p) (FR s))
                (move (powerR p) (BR s)) s)))
        with (powerR p :: moves (FR (snd r1))).
      change (moves (BR (set_motors (move (powerL p) (FL s))
                (move (powerL p) (BL s)) (move (powerR p) (FR s))
                (move (powerR p) (BR s)) s)))
        with (powerR p :: moves (BR (snd r1))).
      rewrite H1, H2, H3, H4.
      repeat split; try reflexivity; constructor; assumption.
Qed.

Lemma baseMotorControl_writes_within_limit_witness :
  exists newL newR : list R,
    moves (FL (snd (baseMotorControl bench (requests [(500, -500)])
                      power_on))) = newL ++ [] /\
    Forall (fun v => Rabs v <= 127) newL /\
    Forall (fun v => Rabs v <= 127) newR.
Proof.
  assert (Hl : 0 <= power_limit bench power_on) by (change (0 <= 127); lra).
  destruct (baseMotorControl_writes_within_limit bench [(500, -500)]
              power_on Hl) as (newL & newR & H1 & _ & _ & _ & HfL & HfR).
  exists newL, newR. split; [exact H1 |]. split; [exact HfL | exact HfR].
Defined.

(** ** The driver loop *)

Lemma opcontrol_loop_last (inputs : list Controller) (master : Controller) :
  forall (tankDrive : bool) (st : Robot),
    opcontrol_loop (inputs ++ [master]) tankDrive st
    = opcontrol_tick (fst (opcontrol_loop inputs tankDrive st)) master
                     (snd (opcontrol_loop inputs tankDrive st)).
Proof.
  induction inputs as [| m inputs IH]; intros tankDrive st; simpl.
  - reflexivity.
  - apply IH.
Qed.

Lemma opcontrol_loop_mode (inputs : list Controller) :
  forall (tankDrive : bool) (st : Robot),
    fst (opcontrol_loop inputs tankDrive st)
    = if Nat.odd (presses inputs) then negb tankDrive else tankDrive.
Proof.
  induction inputs as [| m inputs IH]; intros tankDrive st.
  - reflexivity.
  - simpl opcontrol_loop. rewrite IH. unfold presses. simpl filter.
    destruct (new_press_Y m); simpl length.
    + fold (presses inputs). rewrite Nat.odd_succ, <- Nat.negb_odd.
      destruct (Nat.odd (presses inputs)), tankDrive; reflexivity.
    + reflexivity.
Qed.

(** X20.  In [opcontrol] the drive mode is tank drive exactly after an odd
    number of new presses of button Y, and the last reading of the sticks
    alone decides what the motors are told: in tank drive the left stick
    for both left motors and the right stick for both right motors,
    otherwise the sum of the forward and turn axes for the left motors and
    their difference for the right motors. *)
Theorem opcontrol_mode_and_mixing (inputs : list Controller)
  (master : Controller) (st : Robot) :
  let r := opcontrol (inputs ++ [master]) st in
  fst r = Nat.odd (presses (inputs ++ [master])) /\
  last_commanded (snd r)
  = (if fst r
     then (IZR (left_y master), IZR (left_y master),
           IZR (right_y master), IZR (right_y master))
     else (IZR (left_y master + right_x master),
           IZR (left_y master + right_x master),
           IZR (left_y master - right_x master),
           IZR (left_y master - right_x master))).
Proof.
  intros r.
  assert (Hmode : fst r = Nat.odd (presses (inputs ++ [master]))).
  { unfold r, opcontrol. rewrite opcontrol_loop_mode.
    destruct (Nat.odd (presses (inputs ++ [master]))); reflexivity. }
  split; [exact Hmode |].
  assert (Hz : forall v : R, v - BRAKE_POW = v /\ v + BRAKE_POW = v).
  { intros v. unfold BRAKE_POW. split; ring. }
  unfold r, opcontrol. rewrite opcontrol_loop_last.
  set (before := opcontrol_loop inputs false st).
  unfold opcontrol_tick, last_commanded.
  destruct (if new_press_Y master then negb (fst before) else fst before);
    simpl;
    repeat match goal with
    | |- context [?v - BRAKE_POW] => rewrite (proj1 (Hz v))
    | |- context [?v + BRAKE_POW] => rewrite (proj2 (Hz v))
    end; reflexivity.
Qed.

(** ** Who writes what *)

(** X21.  Each task writes its own variables only.  Left to itself for any
    number of ticks, [baseControl] changes nothing but the two target
    powers, and [baseMotorControl] nothing but the powers the motors are
    told: targets, gains, pose, encoder readings, cap and pause flag stay
    as they were. *)
Theorem tasks_write_their_own_variables (c : Constants) (n : nat)
  (st : Robot) :
  (exists l r : R,
      snd (baseControl (repeat quiet n) st) = set_targetPower l r st) /\
  (exists fl bl fr br : list R,
      snd (baseMotorControl c (repeat quiet n) st)
      = set_motors (mkMotor (get_position (FL st)) fl)
                   (mkMotor (get_position (BL st)) bl)
                   (mkMotor (get_position (FR st)) fr)
                   (mkMotor (get_position (BR st)) br) st).
Proof.
  split.
  - induction n as [| n (l & r & IH)].
    + exists (targetPowerL st), (targetPowerR st).
      destruct st. reflexivity.
    + change (repeat quiet (S n)) with (quiet :: repeat quiet n).
      rewrite repeat_cons. unfold baseControl in *.
      rewrite task_loop_last, IH. unfold quiet at 1.
      eexists. eexists. unfold baseControl_tick. simpl. reflexivity.
  - induction n as [| n (fl & bl & fr & br & IH)].
    + exists (moves (FL st)), (moves (BL st)), (moves (FR st)),
        (moves (BR st)).
      destruct st as [[] [] [] [] ? ? ? ? ? ? ? ? ? ?]. reflexivity.
    + change (repeat quiet (S n)) with (quiet :: repeat quiet n).
      rewrite repeat_cons, baseMotorControl_last, IH.
      set (r1 := baseMotorControl c (repeat quiet n) st).
      set (s := set_motors (mkMotor (get_position (FL st)) fl)
                  (mkMotor (get_position (BL st)) bl)
                  (mkMotor (get_position (FR st)) fr)
                  (mkMotor (get_position (BR st)) br) st).
      change (quiet s) with s.
      destruct (basePaused s) eqn:Hp.
      * rewrite (tick_paused c (fst r1) s Hp).
        exists fl, bl, fr, br. reflexivity.
      * rewrite (tick_running c (fst r1) s Hp).
        eexists. eexists. eexists. eexists. unfold s. reflexivity.
Qed.
